(** * Spotify ETL pipeline: fetch layer, Bronze normalizer, Silver/Gold
      aggregation and the run orchestrator (src/ETL/spotify.py,
      src/ETL/transform.py, src/ETL/main.py, src/ETL/config.py). *)

From Stdlib Require Import ZArith QArith Qround Ascii String List Bool Lia.
From Stdlib Require Import Sorting.Sorted Sorting.Permutation.
Import ListNotations.

Open Scope Z_scope.

(** ** Three-way comparisons, as pandas uses them in [sort_values] and
    [groupby(sort=True)] *)

Class CmpSpec {A : Type} (cmp : A -> A -> comparison) : Prop := {
  cmp_refl : forall x, cmp x x = Eq;
  cmp_eq : forall x y, cmp x y = Eq -> x = y;
  cmp_antisym : forall x y, cmp x y = CompOpp (cmp y x);
  cmp_lt_trans : forall x y z, cmp x y = Lt -> cmp y z = Lt -> cmp x z = Lt
}.

(** Lexicographic combination of two orders (multi-column sort keys). *)
Definition lex_cmp {A B : Type} (ca : A -> A -> comparison)
  (cb : B -> B -> comparison) (p q : A * B) : comparison :=
  match ca (fst p) (fst q) with
  | Eq => cb (snd p) (snd q)
  | c => c
  end.

(** A column sorted with [ascending=False]. *)
Definition desc_cmp {A : Type} (c : A -> A -> comparison) (x y : A) : comparison :=
  c y x.

(** Python [str] ordering: code-point lexicographic, here on ASCII. *)
Definition str_cmp : string -> string -> comparison := String.compare.

(** Stable insertion sort: an element goes after every element it does not
    strictly precede, so equal keys keep their input order (pandas' multi-key
    [sort_values] goes through [np.lexsort], which is stable). *)
Fixpoint insert_stable {A : Type} (cmp : A -> A -> comparison) (x : A)
  (l : list A) : list A :=
  match l with
  | [] => [x]
  | h :: t =>
      match cmp x h with
      | Lt => x :: h :: t
      | _ => h :: insert_stable cmp x t
      end
  end.

Definition stable_sort {A : Type} (cmp : A -> A -> comparison) (l : list A)
  : list A :=
  fold_left (fun acc x => insert_stable cmp x acc) l [].

(** Sort on a key projection. *)
Definition on_key {A K : Type} (key : A -> K) (c : K -> K -> comparison)
  (x y : A) : comparison := c (key x) (key y).

Definition cmp_le {A : Type} (cmp : A -> A -> comparison) (x y : A) : Prop :=
  cmp x y <> Gt.

(** ** Raw playlist payload (the JSON the fetch layer returns) *)

(** An entry of [track["artists"]]: [id] and [name] as read with [.get]. *)
Record Artist := mkArtist {
  artist_id_field : option string;
  artist_name_field : option string
}.

(** [item["track"]]; [None] stands for a missing, [None] or empty dict.
    [popularity] is a JSON number (a rational here). *)
Record Track := mkTrack {
  track_id_field : option string;
  track_name_field : option string;
  track_artists : list Artist;
  track_popularity : option Q
}.

Record Item := mkItem { item_track : option Track }.

(** Python truthiness of an optional string: [None] and [""] are falsy. *)
Definition truthy (o : option string) : option string :=
  match o with
  | Some s => if String.eqb s EmptyString then None else Some s
  | None => None
  end.

(** [[str(artist.get("id")) for artist in artists if artist.get("id")]] *)
Fixpoint artist_ids_of (artists : list Artist) : list string :=
  match artists with
  | [] => []
  | a :: rest =>
      match truthy (artist_id_field a) with
      | Some s => s :: artist_ids_of rest
      | None => artist_ids_of rest
      end
  end.

(** [[str(artist.get("name")) for artist in artists
      if artist.get("name") is not None]] *)
Fixpoint artist_names_of (artists : list Artist) : list string :=
  match artists with
  | [] => []
  | a :: rest =>
      match artist_name_field a with
      | Some s => s :: artist_names_of rest
      | None => artist_names_of rest
      end
  end.

(** [Series.round()] on float64: numpy rounds half to even. *)
Definition round_half_even (q : Q) : Z :=
  let f := Qfloor q in
  match Qcompare (q - inject_Z f) (1 # 2) with
  | Lt => f
  | Gt => f + 1
  | Eq => if Z.even f then f else f + 1
  end.

(** ** Bronze rows ([BRONZE_COLUMNS]); dates are day numbers. *)
Record BronzeRow := mkBronze {
  snapshot_date : Z;
  market : string;
  playlist_id : string;
  playlist_name : string;
  rank : Z;
  track_id : string;
  track_name : option string;
  artist_ids : list string;
  artist_names : list string;
  score : option Z   (* [Int64], [None] is [pd.NA] *)
}.

Section PlaylistToBronze.
Variables (p_market p_playlist_id p_playlist_name : string)
          (p_snapshot_date : Z).

(** The loop body of [playlist_to_bronze] for [enumerate(items, start=1)],
    with the later column conversions folded in: [score] becomes
    [to_numeric(errors="coerce").round().astype("Int64")], rounded exactly
    here; the float64 path gives the same value for popularities float64
    holds exactly ([float64_exact] below). *)
Fixpoint playlist_to_bronze_from (rank0 : Z) (items : list (option Item))
  : list BronzeRow :=
  match items with
  | [] => []
  | raw_item :: rest =>
      let rows := playlist_to_bronze_from (rank0 + 1) rest in
      match raw_item with
      | None => rows                         (* dict(raw_item or {}) *)
      | Some item =>
          match item_track item with
          | None => rows                     (* if not track: continue *)
          | Some track =>
              match truthy (track_id_field track) with
              | None => rows                 (* if not track_id: continue *)
              | Some tid =>
                  let artists := track_artists track in
                  mkBronze p_snapshot_date p_market p_playlist_id
                    p_playlist_name rank0 tid (track_name_field track)
                    (artist_ids_of artists) (artist_names_of artists)
                    (option_map round_half_even (track_popularity track))
                  :: rows
              end
          end
      end
  end.

Definition playlist_to_bronze (items : list (option Item)) : list BronzeRow :=
  playlist_to_bronze_from 1 items.
End PlaylistToBronze.

(** ** [bronze_to_silver] *)

(** A row of the [exploded] frame. *)
Record Exploded := mkExploded {
  e_snapshot_date : Z;
  e_market : string;
  e_artist_id : string;
  e_artist_name : string;
  e_track_id : string;
  e_score : option Z;
  e_rank : Z
}.

(** [SILVER_COLUMNS]. *)
Record SilverRow := mkSilver {
  s_snapshot_date : Z;
  s_market : string;
  artist_id : string;
  artist_name : string;
  tracks : Z;
  total_score : Z;
  best_rank : Z
}.

(** [artist_pairs = list(zip(row["artist_ids"] or [], row["artist_names"] or []))];
    [combine] truncates like [zip]. An empty [artist_pairs] adds nothing. *)
Definition explode_row (row : BronzeRow) : list Exploded :=
  map (fun '(aid, aname) =>
         mkExploded (snapshot_date row) (market row) aid aname
           (track_id row) (score row) (rank row))
      (combine (artist_ids row) (artist_names row)).

Definition explode (rows : list BronzeRow) : list Exploded :=
  flat_map explode_row rows.

(** The groupby key [["snapshot_date", "market", "artist_id", "artist_name"]]. *)
Definition GroupKey : Type := ((Z * string) * (string * string))%type.

Definition group_key (e : Exploded) : GroupKey :=
  ((e_snapshot_date e, e_market e), (e_artist_id e, e_artist_name e)).

Definition key_eq_dec (x y : GroupKey) : {x = y} + {x <> y}.
Proof. repeat decide equality; apply Z.eq_dec. Defined.

Definition key_cmp : GroupKey -> GroupKey -> comparison :=
  lex_cmp (lex_cmp Z.compare str_cmp) (lex_cmp str_cmp str_cmp).

(** [("track_id", "nunique")]. *)
Definition nunique (l : list string) : Z := Z.of_nat (length (nodup string_dec l)).

(** [("score", "sum")]: pandas skips NA and, with the default [min_count=0],
    the sum of a group whose values are all NA is [0]. The sum is exact;
    the int64 sum wraps modulo 2^64, so the two agree when the exact sum
    is in the int64 range. *)
Fixpoint nansum (l : list (option Z)) : Z :=
  match l with
  | [] => 0
  | Some z :: rest => z + nansum rest
  | None :: rest => nansum rest
  end.

(** [("rank", "min")] over a non-empty group. *)
Definition list_min (l : list Z) : Z :=
  match l with
  | [] => 0
  | x :: rest => fold_left Z.min rest x
  end.

Definition group_members (ex : list Exploded) (k : GroupKey) : list Exploded :=
  filter (fun e => if key_eq_dec (group_key e) k then true else false) ex.

Definition aggregate_group (ex : list Exploded) (k : GroupKey) : SilverRow :=
  let g := group_members ex k in
  mkSilver (fst (fst k)) (snd (fst k)) (fst (snd k)) (snd (snd k))
    (nunique (map e_track_id g))
    (nansum (map e_score g))
    (list_min (map e_rank g)).

(** [groupby(..., as_index=False)] with the default [sort=True]: one group per
    distinct key, in ascending key order. *)
Definition group_keys (ex : list Exploded) : list GroupKey :=
  stable_sort key_cmp (nodup key_eq_dec (map group_key ex)).

(** [sort_values(["snapshot_date", "market", "best_rank", "total_score"],
    ascending=[True, True, True, False])]. *)
Definition silver_sort_key (s : SilverRow) : (Z * string) * (Z * Z) :=
  ((s_snapshot_date s, s_market s), (best_rank s, total_score s)).

Definition silver_cmp : SilverRow -> SilverRow -> comparison :=
  on_key silver_sort_key
    (lex_cmp (lex_cmp Z.compare str_cmp) (lex_cmp Z.compare (desc_cmp Z.compare))).

Definition bronze_to_silver (bronze_df : list BronzeRow) : list SilverRow :=
  match bronze_df with
  | [] => []
  | _ =>
      let exploded := explode bronze_df in
      match exploded with
      | [] => []
      | _ =>
          stable_sort silver_cmp
            (map (aggregate_group exploded) (group_keys exploded))
      end
  end.

(** ** [SpotifyClient._request] and its token cache (src/ETL/spotify.py) *)

(** A resource response: status, the [Retry-After] header (whole seconds)
    and the JSON body. *)
Record Response := mkResponse {
  status_code : Z;
  retry_after : option Z;
  resp_body : string
}.

(** A response of the token endpoint. *)
Inductive TokenResponse :=
| TokenOk (access_token : string) (expires_in : option Z)
| TokenFail (status : Z).

(** [self._token], [self._token_expiry]. *)
Record Client := mkClient { _token : option string; _token_expiry : Z }.

(** What the client sees of the outside: the clock (moved by [time.sleep]),
    the scripted answers of the token endpoint, and counters of the token
    posts and resource requests sent. *)
Record World := mkWorld {
  clock : Z;
  token_script : list TokenResponse;
  token_posts : nat;
  requests_sent : nat
}.

Inductive Result :=
| Returned (body : string)       (* return response.json() *)
| RaisedHTTPError (status : Z)   (* raise_for_status() *)
| RaisedValueError               (* time.sleep(retry_after) with a negative length *)
| Waiting.                       (* the loop needs one more response *)

Definition raises_for_status (s : Z) : bool := (400 <=? s) && (s <? 600).

Definition sleep (w : World) (secs : Z) : World :=
  mkWorld (clock w + secs) (token_script w) (token_posts w) (requests_sent w).

Definition sent (w : World) : World :=
  mkWorld (clock w) (token_script w) (token_posts w) (S (requests_sent w)).

Definition token_valid (c : Client) (now : Z) : bool :=
  match truthy (_token c) with
  | Some _ => now <? _token_expiry c - 30
  | None => false
  end.

Inductive TokenStep :=
| TokenReady (c : Client) (w : World)
| TokenRaised (status : Z) (w : World)
| TokenWaiting (w : World).

(** [_ensure_token]. *)
Definition _ensure_token (c : Client) (w : World) : TokenStep :=
  if token_valid c (clock w) then TokenReady c w
  else
    match token_script w with
    | [] => TokenWaiting w
    | tr :: rest =>
        let w' := mkWorld (clock w) rest (S (token_posts w)) (requests_sent w) in
        match tr with
        | TokenFail st => TokenRaised st w'
        | TokenOk tok ex =>
            TokenReady (mkClient (Some tok)
                          (clock w + match ex with Some e => e | None => 3600 end))
                       w'
        end
    end.

(** [_invalidate_token]. *)
Definition _invalidate_token (c : Client) : Client := mkClient None 0.

(** The [while True] loop of [_request]; each iteration consumes one
    response of [rs]. *)
Fixpoint request_loop (rs : list Response) (c : Client) (w : World)
  : Result * Client * World :=
  match rs with
  | [] => (Waiting, c, w)
  | r :: rest =>
      let w1 := sent w in
      if status_code r =? 401 then
        let c1 := _invalidate_token c in
        match _ensure_token c1 w1 with
        | TokenReady c2 w2 => request_loop rest c2 w2
        | TokenRaised st w2 => (RaisedHTTPError st, c1, w2)
        | TokenWaiting w2 => (Waiting, c1, w2)
        end
      else if status_code r =? 429 then
        let secs := match retry_after r with Some s => s | None => 1 end in
        if secs <? 0 then (RaisedValueError, c, w1)
        else request_loop rest c (sleep w1 secs)
      else if raises_for_status (status_code r) then
        (RaisedHTTPError (status_code r), c, w1)
      else (Returned (resp_body r), c, w1)
  end.

Definition _request (c : Client) (w : World) (rs : list Response)
  : Result * Client * World :=
  match _ensure_token c w with
  | TokenReady c1 w1 => request_loop rs c1 w1
  | TokenRaised st w1 => (RaisedHTTPError st, c, w1)
  | TokenWaiting w1 => (Waiting, c, w1)
  end.

(** ** Pagination in [fetch_playlist] *)

(** A JSON object field: absent, [null], or a value. *)
Inductive Field (A : Type) :=
| Missing
| Null
| Present (a : A).
Arguments Missing {A}.
Arguments Null {A}.
Arguments Present {A} a.

(** A [tracks] object or a later page: its [items] and [next] fields. *)
Record Page := mkPage {
  page_items : Field (list (option Item));
  page_next : Field string
}.

(** The playlist object returned by the first request. *)
Record Playlist := mkPlaylist {
  pl_name : option string;
  pl_tracks : Field Page
}.

(** [tracks.get("next")] / [response_data.get("next")], as tested by
    [while next_url]. *)
Definition next_url (p : Page) : option string :=
  match page_next p with
  | Present u => truthy (Some u)
  | _ => None
  end.

(** [playlist.get("tracks", {}) or {}]. *)
Definition first_tracks (pl : Playlist) : Page :=
  match pl_tracks pl with
  | Present p => p
  | _ => mkPage Missing Missing
  end.

(** [tracks.get("items", []) or []]. *)
Definition first_items (p : Page) : list (option Item) :=
  match page_items p with
  | Present l => l
  | _ => []
  end.

Inductive PagesResult :=
| PagesOk (items : list (option Item))
| PagesTypeError       (* len(None) / items.extend(None) on a null batch *)
| PagesWaiting.        (* the loop needs one more page *)

(** The [while next_url] loop; each iteration's [self._request("GET",
    next_url)] returns the next page of [pages]. [batch =
    response_data.get("items", [])] is [None] when the field is [null]. *)
Fixpoint follow_pages (next : option string) (items : list (option Item))
    (pages : list Page) : PagesResult :=
  match next with
  | None => PagesOk items
  | Some _ =>
      match pages with
      | [] => PagesWaiting
      | p :: rest =>
          match page_items p with
          | Null => PagesTypeError
          | Missing => follow_pages (next_url p) items rest
          | Present batch => follow_pages (next_url p) (items ++ batch) rest
          end
      end
  end.

(** [fetch_playlist]: the playlist's name and its accumulated items, given
    the first response and the later pages. *)
Definition fetch_playlist (pl : Playlist) (pages : list Page)
  : option string * PagesResult :=
  let tracks := first_tracks pl in
  (pl_name pl, follow_pages (next_url tracks) (first_items tracks) pages).

(** ** Configuration (src/ETL/config.py) *)

Definition ascii_upper (ch : Ascii.ascii) : Ascii.ascii :=
  let n := Ascii.nat_of_ascii ch in
  if (97 <=? n)%nat && (n <=? 122)%nat then Ascii.ascii_of_nat (n - 32) else ch.

Definition ascii_lower (ch : Ascii.ascii) : Ascii.ascii :=
  let n := Ascii.nat_of_ascii ch in
  if (65 <=? n)%nat && (n <=? 90)%nat then Ascii.ascii_of_nat (n + 32) else ch.

(** [str.upper()] and [str.lower()] on ASCII text. *)
Fixpoint upper (s : string) : string :=
  match s with
  | EmptyString => EmptyString
  | String ch rest => String (ascii_upper ch) (upper rest)
  end.

Fixpoint lower (s : string) : string :=
  match s with
  | EmptyString => EmptyString
  | String ch rest => String (ascii_lower ch) (lower rest)
  end.

Record PlaylistTarget := mkTarget {
  t_market : string;
  t_playlist_id : string;
  api_market_override : option string
}.

Definition dataset_market (t : PlaylistTarget) : string := upper (t_market t).

Definition api_market (t : PlaylistTarget) : option string :=
  match truthy (api_market_override t) with
  | Some o => Some (upper o)
  | None =>
      if String.eqb (lower (t_market t)) "global"%string then None
      else Some (upper (t_market t))
  end.

(** The [Settings] dataclass: its fields are exactly these; it declares no
    [artists] or [default_market]. *)
Record Settings := mkSettings {
  spotify_client_id : string;
  spotify_client_secret : string;
  target : string;
  database_url : option string;
  files_output_dir : string;
  playlists : list PlaylistTarget
}.

(** *** String helpers of the parsers *)

(** [str.isspace()] on the code points U+0000..U+00FF. *)
Definition is_space (c : Ascii.ascii) : bool :=
  let n := Ascii.nat_of_ascii c in
  ((9 <=? n)%nat && (n <=? 13)%nat) || ((28 <=? n)%nat && (n <=? 32)%nat)
  || (n =? 133)%nat || (n =? 160)%nat.

Fixpoint lstrip_by (p : Ascii.ascii -> bool) (s : string) : string :=
  match s with
  | EmptyString => EmptyString
  | String c rest => if p c then lstrip_by p rest else s
  end.

Fixpoint rstrip_by (p : Ascii.ascii -> bool) (s : string) : string :=
  match s with
  | EmptyString => EmptyString
  | String c rest =>
      match rstrip_by p rest with
      | EmptyString => if p c then EmptyString else String c EmptyString
      | r => String c r
      end
  end.

(** [s.strip()] and [s.strip("/")]. *)
Definition strip_by (p : Ascii.ascii -> bool) (s : string) : string :=
  rstrip_by p (lstrip_by p s).

Definition strip (s : string) : string := strip_by is_space s.

(** [s.split(c)] for a one-character separator. *)
Fixpoint split_char (c : Ascii.ascii) (s : string) : list string :=
  match s with
  | EmptyString => [EmptyString]
  | String d rest =>
      if Ascii.eqb d c then EmptyString :: split_char c rest
      else match split_char c rest with
           | [] => [String d EmptyString]
           | h :: t => String d h :: t
           end
  end.

(** [s.split(sep, 1)] as the pair around the first occurrence of [sep], if any. *)
Fixpoint split_once (sep s : string) : option (string * string) :=
  if String.prefix sep s
  then Some (EmptyString,
             substring (String.length sep) (String.length s - String.length sep)%nat s)
  else match s with
       | EmptyString => None
       | String c rest =>
           match split_once sep rest with
           | Some (a, b) => Some (String c a, b)
           | None => None
           end
       end.

(** [sep in s]. *)
Definition contains (sep s : string) : bool :=
  match split_once sep s with Some _ => true | None => false end.

(** [s.split(sep, 1)[0]] and [s.split(sep, 1)[-1]]. *)
Definition before (sep s : string) : string :=
  match split_once sep s with Some (a, _) => a | None => s end.

Definition after (sep s : string) : string :=
  match split_once sep s with Some (_, b) => b | None => s end.

Definition last_string (l : list string) : string := last l EmptyString.

(** The outcome of a configuration helper: a value, or [RuntimeError]. *)
Inductive Parsed (A : Type) :=
| ParseOk (a : A)
| ParseRaised (msg : string).
Arguments ParseOk {A} a.
Arguments ParseRaised {A} msg.

(** [_split_playlist_entry]. *)
Definition _split_playlist_entry (entry : string)
  : Parsed (string * option string) :=
  match split_once "@"%string entry with
  | None => ParseOk (entry, None)
  | Some (pid, mk) =>
      let pid := strip pid in
      let mk := strip mk in
      if String.eqb pid EmptyString then
        ParseRaised "Playlist entry is missing the playlist ID before '@'."%string
      else if String.eqb mk EmptyString then
        ParseRaised
          "Playlist entry must include a market code after '@' when provided."%string
      else ParseOk (pid, Some mk)
  end.

(** [_normalise_playlist_id]. *)
Definition _normalise_playlist_id (value : string) : string :=
  let value := strip value in
  if String.prefix "spotify:"%string value then
    strip (last_string (split_char ":"%char value))
  else if contains "open.spotify.com"%string value then
    let segment := after "playlist/"%string value in
    let segment := before "?"%string segment in
    let segment := before "&"%string segment in
    strip (strip_by (fun c => Ascii.eqb c "/"%char) segment)
  else value.

Definition playlist_ids_error : string :=
  "Invalid SPOTIFY_PLAYLIST_IDS entry. Use MARKET:PLAYLIST_ID format."%string.

(** The [for part in parts] loop of [_parse_playlists]. *)
Fixpoint parse_parts (parts : list string) : Parsed (list PlaylistTarget) :=
  match parts with
  | [] => ParseOk []
  | part :: rest =>
      match split_once ":"%string part with
      | None => ParseRaised playlist_ids_error
      | Some (m, e) =>
          let market := strip m in
          let playlist_entry := strip e in
          if String.eqb market EmptyString || String.eqb playlist_entry EmptyString
          then ParseRaised playlist_ids_error
          else
            match _split_playlist_entry playlist_entry with
            | ParseRaised msg => ParseRaised msg
            | ParseOk (playlist_value, api_override) =>
                match parse_parts rest with
                | ParseRaised msg => ParseRaised msg
                | ParseOk ts =>
                    ParseOk (mkTarget (lower market)
                               (_normalise_playlist_id playlist_value)
                               api_override :: ts)
                end
            end
      end
  end.

Definition default_target : PlaylistTarget :=
  mkTarget "us"%string "37i9dQZEVXbLRQDuF5jeBp"%string (Some "US"%string).

(** [_parse_playlists]. *)
Definition _parse_playlists (raw_value : option string)
  : Parsed (list PlaylistTarget) :=
  match truthy raw_value with
  | None => ParseOk [default_target]
  | Some raw =>
      let parts := filter (fun p => negb (String.eqb p EmptyString))
                     (map strip (split_char ","%char raw)) in
      match parse_parts parts with
      | ParseRaised msg => ParseRaised msg
      | ParseOk [] =>
          ParseRaised "SPOTIFY_PLAYLIST_IDS did not contain any playlist entries."%string
      | ParseOk ts => ParseOk ts
      end
  end.

(** [Settings.use_database]: [self.target == "postgres" and
    bool(self.database_url)]. *)
Definition use_database (st : Settings) : bool :=
  String.eqb (target st) "postgres"%string &&
  match truthy (database_url st) with Some _ => true | None => false end.

Definition credentials_error : string :=
  "Missing Spotify credentials. Set SPOTIFY_CLIENT_ID and SPOTIFY_CLIENT_SECRET."%string.

Definition target_error : string :=
  "TARGET must be either 'files' or 'postgres'."%string.

(** [load_settings()], with [env] the process environment after
    [_ensure_env_loaded()] ([os.getenv] gives [None] for an unset variable).
    [RuntimeError] and the [ValueError] of [_parse_playlists] both surface as
    [ParseRaised]; [files_output_dir] is the string given to [Path]. *)
Definition load_settings (env : string -> option string) : Parsed Settings :=
  match truthy (env "SPOTIFY_CLIENT_ID"%string), truthy (env "SPOTIFY_CLIENT_SECRET"%string) with
  | Some client_id, Some client_secret =>
      let target := lower (strip (match env "TARGET"%string with
                                  | Some v => v
                                  | None => "files"%string
                                  end)) in
      if negb (String.eqb target "files"%string || String.eqb target "postgres"%string)
      then ParseRaised target_error
      else
        let database_url := env "SUPABASE_DATABASE_URL"%string in
        let files_output := match truthy (env "FILES_OUTPUT_DIR"%string) with
                            | Some v => v
                            | None => "ETL/outputs"%string
                            end in
        match _parse_playlists (env "SPOTIFY_PLAYLIST_IDS"%string) with
        | ParseRaised msg => ParseRaised msg
        | ParseOk playlists =>
            ParseOk (mkSettings client_id client_secret target database_url
                      files_output playlists)
        end
  | _, _ => ParseRaised credentials_error
  end.

(** ** The orchestrator [run] (src/ETL/main.py) *)

(** What one [client.fetch_playlist(playlist_id, market=...)] call does:
    return the playlist (its [name] and [tracks.items]), raise
    [requests.HTTPError] (with the response text when there is a response),
    or raise another exception (for instance [requests.ConnectionError]). *)
Inductive FetchResult :=
| Fetched (name : option string) (items : list (option Item))
| FetchHTTPError (response_text : option string)
| FetchOtherError (exc_name : string).

Inductive RunExc :=
| OtherError (exc_name : string)
| AttributeError (msg : string)
| RuntimeError (msg : string).

(** [run] either reaches aggregation, handing Bronze and Silver on to the
    sink, or raises. *)
Inductive RunResult :=
| RunProceeds (bronze : list BronzeRow) (silver : list SilverRow)
| RunRaised (e : RunExc).

Inductive Attempt :=
| Got (name : option string) (items : list (option Item))
| AllFailed (last_error : option (option string))
| Crashed (exc_name : string).

Inductive TargetsResult :=
| TargetsDone (calls : nat) (bronze_frames : list (list BronzeRow))
              (errors : list string)
| TargetsCrashed (exc_name : string).

Section Run.
(** [fetch n playlist_id market] is the outcome of the [n]-th fetch call. *)
Variable fetch : nat -> string -> option string -> FetchResult.
Variable snapshot_date0 : Z.

(** [for api_market in candidate_markets: try ... except HTTPError]. *)
Fixpoint try_candidates (n : nat) (pid : string) (cands : list (option string))
  (last_error : option (option string)) : nat * Attempt :=
  match cands with
  | [] => (n, AllFailed last_error)
  | m :: rest =>
      match fetch n pid m with
      | Fetched name items => (S n, Got name items)
      | FetchHTTPError txt => try_candidates (S n) pid rest (Some txt)
      | FetchOtherError e => (S n, Crashed e)
      end
  end.

Definition candidate_markets (t : PlaylistTarget) : list (option string) :=
  match api_market t with
  | Some m => if String.eqb m EmptyString then [None] else [Some m; None]
  | None => [None]
  end.

Definition failure_message (t : PlaylistTarget)
  (last_error : option (option string)) : string :=
  let response_text :=
    match last_error with
    | Some (Some txt) => (" | Spotify response: " ++ txt)%string
    | _ => ""%string
    end in
  ("Failed to fetch playlist '" ++ t_playlist_id t ++ "' for market '"
   ++ t_market t ++ "'. Verify the playlist ID/URL is public, "
   ++ "available in the requested market, and that the app has access."
   ++ response_text)%string.

(** [for target in playlist_targets: ...]. *)
Fixpoint run_targets (n : nat) (targets : list PlaylistTarget)
  (bronze_frames : list (list BronzeRow)) (errors : list string)
  : TargetsResult :=
  match targets with
  | [] => TargetsDone n bronze_frames errors
  | t :: rest =>
      match try_candidates n (t_playlist_id t) (candidate_markets t) None with
      | (_, Crashed e) => TargetsCrashed e
      | (n', AllFailed le) =>
          run_targets n' rest bronze_frames (errors ++ [failure_message t le])
      | (n', Got name items) =>
          let pname := match truthy name with
                       | Some s => s | None => t_playlist_id t end in
          let frame := playlist_to_bronze (dataset_market t) (t_playlist_id t)
                         pname snapshot_date0 items in
          match frame with
          | [] => run_targets n' rest bronze_frames errors
          | _ => run_targets n' rest (bronze_frames ++ [frame]) errors
          end
      end
  end.

(** [run()]. With no Bronze frame, [if not bronze_frames and settings.artists]
    reads a field the [Settings] dataclass does not have, so the artist
    fallback and the aggregate [RuntimeError] after it are not reached. *)
Definition run (settings : Settings) : RunResult :=
  match run_targets 0 (playlists settings) [] [] with
  | TargetsCrashed e => RunRaised (OtherError e)
  | TargetsDone _ bronze_frames errors =>
      match bronze_frames with
      | [] => RunRaised (AttributeError
                "'Settings' object has no attribute 'artists'"%string)
      | _ =>
          let bronze_df := concat bronze_frames in
          RunProceeds bronze_df (bronze_to_silver bronze_df)
      end
  end.
(** The outcome of one fetch call, as the [try]/[except HTTPError] sees it. *)
Definition attempt_of (r : FetchResult) : Attempt :=
  match r with
  | Fetched name items => Got name items
  | FetchHTTPError txt => AllFailed (Some txt)
  | FetchOtherError e => Crashed e
  end.




End Run.

(** ** [top_tracks_to_bronze] (src/ETL/transform.py) *)

Section TopTracksToBronze.
Variables (p_market p_playlist_id p_playlist_name : string) (p_snapshot_date : Z).

(** [for rank, track in enumerate(tracks, start=1)]: each element is a track
    dict itself, skipped when its [id] is falsy. *)
Fixpoint top_tracks_to_bronze_from (rank0 : Z) (tracks : list Track)
  : list BronzeRow :=
  match tracks with
  | [] => []
  | track :: rest =>
      let rows := top_tracks_to_bronze_from (rank0 + 1) rest in
      match truthy (track_id_field track) with
      | None => rows
      | Some tid =>
          let artists := track_artists track in
          mkBronze p_snapshot_date p_market p_playlist_id p_playlist_name rank0
            tid (track_name_field track)
            (artist_ids_of artists) (artist_names_of artists)
            (option_map round_half_even (track_popularity track))
          :: rows
      end
  end.

Definition top_tracks_to_bronze (tracks : list Track) : list BronzeRow :=
  top_tracks_to_bronze_from 1 tracks.
End TopTracksToBronze.

(** ** [silver_to_gold] (src/ETL/transform.py) *)

(** [GOLD_COLUMNS]. *)
Record GoldRow := mkGold {
  g_snapshot_date : Z;
  g_artist_id : string;
  g_artist_name : string;
  markets : Z;
  g_total_score : Z;
  g_best_rank : Z
}.

(** The groupby key [["snapshot_date", "artist_id", "artist_name"]]. *)
Definition GoldKey : Type := (Z * (string * string))%type.

Definition gold_key_of (s : SilverRow) : GoldKey :=
  (s_snapshot_date s, (artist_id s, artist_name s)).

Definition gold_key_eq_dec (x y : GoldKey) : {x = y} + {x <> y}.
Proof. repeat decide equality; apply Z.eq_dec. Defined.

Definition gold_key_cmp : GoldKey -> GoldKey -> comparison :=
  lex_cmp Z.compare (lex_cmp str_cmp str_cmp).

Definition gold_members (silver : list SilverRow) (k : GoldKey) : list SilverRow :=
  filter (fun s => if gold_key_eq_dec (gold_key_of s) k then true else false) silver.

(** [("total_score", "sum")] over non-missing integers. *)
Definition sum_Z (l : list Z) : Z := fold_right Z.add 0 l.

(** [agg(markets=("market", "nunique"), total_score=("total_score", "sum"),
    best_rank=("best_rank", "min"))]. *)
Definition aggregate_gold (silver : list SilverRow) (k : GoldKey) : GoldRow :=
  let g := gold_members silver k in
  mkGold (fst k) (fst (snd k)) (snd (snd k))
    (nunique (map s_market g))
    (sum_Z (map total_score g))
    (list_min (map best_rank g)).

Definition gold_keys (silver : list SilverRow) : list GoldKey :=
  stable_sort gold_key_cmp (nodup gold_key_eq_dec (map gold_key_of silver)).

(** [sort_values(["snapshot_date", "best_rank", "total_score"],
    ascending=[True, True, False])]. *)
Definition gold_sort_key (g : GoldRow) : Z * (Z * Z) :=
  (g_snapshot_date g, (g_best_rank g, g_total_score g)).

Definition gold_cmp : GoldRow -> GoldRow -> comparison :=
  on_key gold_sort_key (lex_cmp Z.compare (lex_cmp Z.compare (desc_cmp Z.compare))).

Definition silver_to_gold (silver_df : list SilverRow) : list GoldRow :=
  match silver_df with
  | [] => []
  | _ => stable_sort gold_cmp (map (aggregate_gold silver_df) (gold_keys silver_df))
  end.

(** ** Loading into Postgres (src/ETL/db.py) *)

(** The three tables, as the lists of their rows. *)
Record Db := mkDb {
  bronze_table : list BronzeRow;
  silver_table : list SilverRow;
  gold_table : list GoldRow
}.

Definition BRONZE_TABLE : string := "bronze_daily_tracks".
Definition SILVER_TABLE : string := "silver_artist_market_daily".
Definition GOLD_TABLE : string := "gold_artist_global_daily".

(** The primary keys of [BRONZE_DDL], [SILVER_DDL] and [GOLD_DDL]. *)
Definition bronze_pk (r : BronzeRow) : Z * (string * Z) :=
  (snapshot_date r, (market r, rank r)).
Definition silver_pk (s : SilverRow) : Z * (string * string) :=
  (s_snapshot_date s, (s_market s, artist_id s)).
Definition gold_pk (g : GoldRow) : Z * string :=
  (g_snapshot_date g, g_artist_id g).

Definition bronze_pk_eq_dec (x y : Z * (string * Z)) : {x = y} + {x <> y}.
Proof. repeat decide equality; apply Z.eq_dec. Defined.
Definition silver_pk_eq_dec (x y : Z * (string * string)) : {x = y} + {x <> y}.
Proof. repeat decide equality; apply Z.eq_dec. Defined.
Definition gold_pk_eq_dec (x y : Z * string) : {x = y} + {x <> y}.
Proof. repeat decide equality; apply Z.eq_dec. Defined.

(** The rows of an append pass the primary key check when none repeats the
    key of a row already in the table or of an earlier row of the batch. *)
Fixpoint fresh_keys {A K : Type} (key : A -> K)
    (dec : forall x y : K, {x = y} + {x <> y}) (existing new : list A) : bool :=
  match new with
  | [] => true
  | r :: rest =>
      negb (existsb (fun e => if dec (key r) (key e) then true else false) existing)
      && fresh_keys key dec (existing ++ [r]) rest
  end.

(** [df.to_sql(table, connection, if_exists="append")] inside
    [engine.begin()]: all rows are appended, or an [IntegrityError] rolls the
    transaction back. Only the primary key check is modelled: the errors a
    value itself raises (an [int] column outside the 32-bit range gives
    [DataError], a text containing NUL is refused by the driver) are not, so
    the theorems about the load assume storable frames
    ([bronze_storable] and the like below). *)
Definition append_rows {A K : Type} (key : A -> K)
    (dec : forall x y : K, {x = y} + {x <> y}) (table new : list A) : option (list A) :=
  if fresh_keys key dec table new then Some (table ++ new) else None.

(** [_delete_snapshot]: one transaction deleting the snapshot's rows of the
    three tables. *)
Definition _delete_snapshot (snapshot : Z) (db : Db) : Db :=
  mkDb (filter (fun r => negb (snapshot_date r =? snapshot)) (bronze_table db))
       (filter (fun s => negb (s_snapshot_date s =? snapshot)) (silver_table db))
       (filter (fun g => negb (g_snapshot_date g =? snapshot)) (gold_table db)).

Inductive LoadExc :=
| LoadRuntimeError (msg : string)
| IntegrityError (table : string).

Inductive LoadResult :=
| Loaded (inserted : list (string * nat)) (db : Db)
| LoadRaised (e : LoadExc) (db : Db).

(** The snapshot date taken from the first non-empty frame. *)
Definition first_snapshot (bronze : list BronzeRow) (silver : list SilverRow)
    (gold : list GoldRow) : option Z :=
  match bronze, silver, gold with
  | r :: _, _, _ => Some (snapshot_date r)
  | [], s :: _, _ => Some (s_snapshot_date s)
  | [], [], g :: _ => Some (g_snapshot_date g)
  | [], [], [] => None
  end.

(** [load_dataframes] on the database state [db] (the tables already
    exist). *)
Definition load_dataframes (bronze_df : list BronzeRow) (silver_df : list SilverRow)
    (gold_df : list GoldRow) (snapshot : option Z) (db : Db) : LoadResult :=
  let snapshot := match snapshot with
                  | Some d => Some d
                  | None => first_snapshot bronze_df silver_df gold_df
                  end in
  match snapshot with
  | None => LoadRaised
      (LoadRuntimeError "Unable to determine snapshot date for database load.") db
  | Some d =>
      let db1 := _delete_snapshot d db in
      let bronze_step :=
        match bronze_df with
        | [] => Some ([], db1)
        | _ => match append_rows bronze_pk bronze_pk_eq_dec (bronze_table db1) bronze_df with
               | Some t => Some ([(BRONZE_TABLE, length bronze_df)],
                                 mkDb t (silver_table db1) (gold_table db1))
               | None => None
               end
        end in
      match bronze_step with
      | None => LoadRaised (IntegrityError BRONZE_TABLE) db1
      | Some (ins1, db2) =>
          let silver_step :=
            match silver_df with
            | [] => Some (ins1, db2)
            | _ => match append_rows silver_pk silver_pk_eq_dec (silver_table db2) silver_df with
                   | Some t => Some ((ins1 ++ [(SILVER_TABLE, length silver_df)])%list,
                                     mkDb (bronze_table db2) t (gold_table db2))
                   | None => None
                   end
            end in
          match silver_step with
          | None => LoadRaised (IntegrityError SILVER_TABLE) db2
          | Some (ins2, db3) =>
              match gold_df with
              | [] => Loaded ins2 db3
              | _ => match append_rows gold_pk gold_pk_eq_dec (gold_table db3) gold_df with
                     | Some t => Loaded ((ins2 ++ [(GOLD_TABLE, length gold_df)])%list)
                                        (mkDb (bronze_table db3) (silver_table db3) t)
                     | None => LoadRaised (IntegrityError GOLD_TABLE) db3
                     end
              end
          end
      end
  end.

(** ** Daily snapshots by market search (src/ETL/extracts.py) *)

(** A record appended by [extract_daily_snapshots]. [tr.get(...)] gives
    [None] for a missing key. *)
Record SnapshotRecord := mkSnapshotRecord {
  rec_snapshot_date : string;
  rec_market : string;
  rec_playlist_id : string;
  rec_playlist_name : option string;
  rec_rank : Z;
  rec_track_id : option string;
  rec_track_name : option string;
  rec_artist_ids : list (option string);
  rec_artist_names : list (option string)
}.

(** [(tr.get("artists") or [])], with [tr = it.get("track") or {}]. *)
Definition item_artists (tr : option Track) : list Artist :=
  match tr with Some t => track_artists t | None => [] end.

(** The inner loop [for it in items[:50]]: one record per item, [rank]
    starting at the value passed and incremented after each record. *)
Fixpoint snapshot_records (today m pid : string) (pname : option string)
    (rank : Z) (items : list Item) : list SnapshotRecord :=
  match items with
  | [] => []
  | it :: rest =>
      let tr := item_track it in
      mkSnapshotRecord today m pid pname rank
        (match tr with Some t => track_id_field t | None => None end)
        (match tr with Some t => track_name_field t | None => None end)
        (map artist_id_field (item_artists tr))
        (map artist_name_field (item_artists tr))
      :: snapshot_records today m pid pname (rank + 1) rest
  end.

(** [extract_daily_snapshots(sp)]. The client [sp] is seen through the two
    helpers it is passed to: [find_top50 m] is the pair
    [find_top50_playlist_for_market(sp, m)] returns and [fetch_tracks pid m]
    the items of [fetch_playlist_tracks(sp, pid, market=m)]. [MARKETS] is
    the list imported from [.markets]; [today] is [str(date.today())]. *)
Definition extract_daily_snapshots (MARKETS : list string)
    (find_top50 : string -> option string * option string)
    (fetch_tracks : string -> string -> list Item) (today : string)
  : list SnapshotRecord :=
  flat_map (fun m =>
    let '(pid, pname) := find_top50 m in
    match truthy pid with
    | None => []
    | Some pid' => snapshot_records today m pid' pname 1 (firstn 50 (fetch_tracks pid' m))
    end) MARKETS.

(** ** Vocabulary of the statements *)

(** The Silver columns that form the groupby key. *)
Definition silver_group_key (s : SilverRow) : GroupKey :=
  ((s_snapshot_date s, s_market s), (artist_id s, artist_name s)).

(** The track id [playlist_to_bronze] resolves for a raw entry, if any. *)
Definition resolvable_track_id (raw_item : option Item) : option string :=
  match raw_item with
  | Some item =>
      match item_track item with
      | Some track => truthy (track_id_field track)
      | None => None
      end
  | None => None
  end.

(** A Bronze row with its two artist lists cut to the shorter length. *)
Definition truncate_artists (r : BronzeRow) : BronzeRow :=
  let n := Nat.min (length (artist_ids r)) (length (artist_names r)) in
  mkBronze (snapshot_date r) (market r) (playlist_id r) (playlist_name r)
    (rank r) (track_id r) (track_name r)
    (firstn n (artist_ids r)) (firstn n (artist_names r)) (score r).

(** Whether [zip(artist_ids, artist_names)] of a Bronze row is non-empty. *)
Definition has_artist_pairs (r : BronzeRow) : bool :=
  match combine (artist_ids r) (artist_names r) with
  | [] => false
  | _ => true
  end.

(** The Gold key [(snapshot_date, artist_id, artist_name)] of an output row. *)
Definition gold_row_key (g : GoldRow) : GoldKey :=
  (g_snapshot_date g, (g_artist_id g, g_artist_name g)).

(** The seconds [_request] sleeps on a 429 response ([Retry-After], default 1). *)
Definition retry_wait (r : Response) : Z :=
  match retry_after r with Some s => s | None => 1 end.

(** The lifetime [_ensure_token] gives a fresh token ([expires_in], default 3600). *)
Definition token_lifetime (ex : option Z) : Z :=
  match ex with Some e => e | None => 3600 end.

(** The items a later page contributes ([response_data.get("items", [])]). *)
Definition page_batch (p : Page) : list (option Item) :=
  match page_items p with
  | Present l => l
  | _ => []
  end.

(** Letters and digits, the characters of Spotify ids and market codes. *)
Definition is_alnum (c : Ascii.ascii) : bool :=
  let n := Ascii.nat_of_ascii c in
  ((48 <=? n)%nat && (n <=? 57)%nat) || ((65 <=? n)%nat && (n <=? 90)%nat)
  || ((97 <=? n)%nat && (n <=? 122)%nat).

Fixpoint all_chars (p : Ascii.ascii -> bool) (s : string) : bool :=
  match s with
  | EmptyString => true
  | String c rest => p c && all_chars p rest
  end.

(** A non-empty string of letters and digits. *)
Definition id_like (s : string) : bool :=
  negb (String.eqb s EmptyString) && all_chars is_alnum s.

Definition well_formed_target (t : PlaylistTarget) : bool :=
  id_like (t_market t) && id_like (t_playlist_id t) &&
  match api_market_override t with Some o => id_like o | None => true end.

(** The [SPOTIFY_PLAYLIST_IDS] entry [MARKET:PLAYLIST_ID] or
    [MARKET:PLAYLIST_ID@API_MARKET] of a target. *)
Definition entry_string (t : PlaylistTarget) : string :=
  (t_market t ++ ":" ++ t_playlist_id t ++
   match api_market_override t with Some o => "@" ++ o | None => EmptyString end)%string.

(** The character [c] does not occur in [s]. *)
Definition char_free (c : Ascii.ascii) (s : string) : bool :=
  all_chars (fun d => negb (Ascii.eqb d c)) s.

(** A number a float64 holds exactly, of magnitude at most 2^53: [m / 2^e]
    with [|m| <= 2^53] and [0 <= e <= 1074]. Every JSON integer of that
    magnitude is one, and so is every float [json] parses to in that range;
    [to_numeric] keeps them exact and [.round().astype("Int64")] does not
    raise on them. *)
Definition float64_exact (q : Q) : Prop :=
  exists m e, Z.abs m <= 2 ^ 53 /\ 0 <= e <= 1074 /\ (q * inject_Z (2 ^ e) == inject_Z m)%Q.

(** A value of an [Int64] column. *)
Definition int64_ok (z : Z) : bool := (- 2 ^ 63 <=? z) && (z <? 2 ^ 63).

(** A value of an [int] (int4) column of the DDL. *)
Definition int4_ok (z : Z) : bool := (-2147483648 <=? z) && (z <=? 2147483647).

(** A value of a [text] column: PostgreSQL text holds no NUL character. *)
Definition text_ok (s : string) : bool := char_free Ascii.zero s.

Definition opt_ok {A : Type} (ok : A -> bool) (o : option A) : bool :=
  match o with Some a => ok a | None => true end.

(** Rows whose every value the three tables of the DDL accept. *)
Definition bronze_storable (r : BronzeRow) : bool :=
  text_ok (market r) && text_ok (playlist_id r) && text_ok (playlist_name r)
  && int4_ok (rank r) && text_ok (track_id r) && opt_ok text_ok (track_name r)
  && forallb text_ok (artist_ids r) && forallb text_ok (artist_names r)
  && opt_ok int4_ok (score r).

Definition silver_storable (x : SilverRow) : bool :=
  text_ok (s_market x) && text_ok (artist_id x) && text_ok (artist_name x)
  && int4_ok (tracks x) && int4_ok (total_score x) && int4_ok (best_rank x).

Definition gold_storable (x : GoldRow) : bool :=
  text_ok (g_artist_id x) && text_ok (g_artist_name x)
  && int4_ok (markets x) && int4_ok (g_total_score x) && int4_ok (g_best_rank x).

(** The [inserted] dictionary [load_dataframes] returns when every append
    succeeds. *)
Definition inserted_counts (b : list BronzeRow) (s : list SilverRow) (g : list GoldRow)
  : list (string * nat) :=
  (match b with [] => [] | _ => [(BRONZE_TABLE, length b)] end ++
   match s with [] => [] | _ => [(SILVER_TABLE, length s)] end ++
   match g with [] => [] | _ => [(GOLD_TABLE, length g)] end)%list.

(** The tables after the snapshot [d] of [db] is replaced by the frames. *)
Definition replaced_snapshot (d : Z) (b : list BronzeRow) (s : list SilverRow)
    (g : list GoldRow) (db : Db) : Db :=
  mkDb (filter (fun r => negb (snapshot_date r =? d)) (bronze_table db) ++ b)
       (filter (fun x => negb (s_snapshot_date x =? d)) (silver_table db) ++ s)
       (filter (fun x => negb (g_snapshot_date x =? d)) (gold_table db) ++ g).

(** * Proofs *)

(** ** Orders *)

Lemma str_cmp_refl : forall s, str_cmp s s = Eq.
Proof.
  unfold str_cmp; induction s as [|ch s IH]; simpl; [reflexivity|].
  unfold Ascii.compare; rewrite N.compare_refl; exact IH.
Qed.

Lemma str_cmp_lt_trans : forall a b c,
  str_cmp a b = Lt -> str_cmp b c = Lt -> str_cmp a c = Lt.
Proof.
  unfold str_cmp; induction a as [|x a IH]; intros [|y b] [|z c]; simpl;
    try congruence.
  unfold Ascii.compare.
  destruct (N.compare (Ascii.N_of_ascii x) (Ascii.N_of_ascii y)) eqn:Hxy;
  destruct (N.compare (Ascii.N_of_ascii y) (Ascii.N_of_ascii z)) eqn:Hyz;
  intros H1 H2; try congruence;
  destruct (N.compare (Ascii.N_of_ascii x) (Ascii.N_of_ascii z)) eqn:Hxz;
  try reflexivity;
  rewrite ?N.compare_eq_iff, ?N.compare_lt_iff, ?N.compare_gt_iff in *;
  try lia.
  apply IH with b; assumption.
Qed.

#[export] Instance Z_cmp_spec : CmpSpec Z.compare.
Proof.
  split.
  - exact Z.compare_refl.
  - intros x y; apply Z.compare_eq.
  - intros x y; apply Z.compare_antisym.
  - intros x y z; rewrite !Z.compare_lt_iff; lia.
Qed.

#[export] Instance str_cmp_spec : CmpSpec str_cmp.
Proof.
  split.
  - exact str_cmp_refl.
  - exact String.compare_eq_iff.
  - exact String.compare_antisym.
  - exact str_cmp_lt_trans.
Qed.

#[export] Instance lex_cmp_spec {A B : Type} (ca : A -> A -> comparison)
  (cb : B -> B -> comparison) `{CmpSpec A ca} `{CmpSpec B cb} :
  CmpSpec (lex_cmp ca cb).
Proof.
  split; unfold lex_cmp.
  - intros [x1 x2]; simpl; rewrite !cmp_refl; reflexivity.
  - intros [x1 x2] [y1 y2]; simpl.
    destruct (ca x1 y1) eqn:E; try discriminate; intros E2.
    apply cmp_eq in E; apply cmp_eq in E2; subst; reflexivity.
  - intros [x1 x2] [y1 y2]; simpl.
    rewrite (@cmp_antisym _ ca _ x1 y1), (@cmp_antisym _ cb _ x2 y2).
    destruct (ca y1 x1); reflexivity.
  - intros [x1 x2] [y1 y2] [z1 z2]; simpl.
    destruct (ca x1 y1) eqn:Exy; try discriminate;
    destruct (ca y1 z1) eqn:Eyz; try discriminate; intros H1 H2.
    + apply cmp_eq in Exy; apply cmp_eq in Eyz; subst.
      rewrite cmp_refl; eapply cmp_lt_trans; eauto.
    + apply cmp_eq in Exy; subst; rewrite Eyz; reflexivity.
    + apply cmp_eq in Eyz; subst; rewrite Exy; reflexivity.
    + rewrite (cmp_lt_trans _ _ _ Exy Eyz); reflexivity.
Qed.

#[export] Instance desc_cmp_spec {A : Type} (c : A -> A -> comparison)
  `{CmpSpec A c} : CmpSpec (desc_cmp c).
Proof.
  split; unfold desc_cmp.
  - intros; apply cmp_refl.
  - intros x y E; symmetry; apply cmp_eq; exact E.
  - intros; apply cmp_antisym.
  - intros x y z H1 H2; eapply cmp_lt_trans; eauto.
Qed.

(** Orders on a key projection are total preorders. *)
Section OnKey.
Context {A K : Type} (key : A -> K) (c : K -> K -> comparison) `{CmpSpec K c}.

Lemma on_key_antisym : forall x y,
  on_key key c x y = CompOpp (on_key key c y x).
Proof. intros; unfold on_key; apply cmp_antisym. Qed.

Lemma on_key_le_trans : forall x y z,
  cmp_le (on_key key c) x y -> cmp_le (on_key key c) y z ->
  cmp_le (on_key key c) x z.
Proof.
  unfold cmp_le, on_key; intros x y z H1 H2.
  destruct (c (key x) (key y)) eqn:E1; try congruence.
  - apply cmp_eq in E1; rewrite E1; exact H2.
  - destruct (c (key y) (key z)) eqn:E2; try congruence.
    + apply cmp_eq in E2; rewrite <- E2, E1; discriminate.
    + rewrite (cmp_lt_trans _ _ _ E1 E2); discriminate.
Qed.
End OnKey.

(** ** The stable sort *)

Section StableSort.
Context {A : Type} (cmp : A -> A -> comparison).
Hypothesis cmp_antisym' : forall x y, cmp x y = CompOpp (cmp y x).

Lemma insert_stable_perm : forall x l, Permutation (insert_stable cmp x l) (x :: l).
Proof.
  intros x l; induction l as [|h t IH]; simpl; [reflexivity|].
  destruct (cmp x h); try reflexivity;
    (etransitivity; [apply perm_skip, IH | apply perm_swap]).
Qed.

Lemma fold_insert_perm : forall l acc,
  Permutation (fold_left (fun acc x => insert_stable cmp x acc) l acc) (l ++ acc).
Proof.
  induction l as [|x l IH]; intros acc; simpl; [reflexivity|].
  rewrite IH, insert_stable_perm; symmetry; apply Permutation_middle.
Qed.

Lemma stable_sort_perm : forall l, Permutation (stable_sort cmp l) l.
Proof.
  intros l; unfold stable_sort; rewrite fold_insert_perm, app_nil_r; reflexivity.
Qed.

Lemma not_lt_le : forall x h, cmp x h <> Lt -> cmp_le cmp h x.
Proof.
  unfold cmp_le; intros x h H; rewrite cmp_antisym'.
  destruct (cmp x h); simpl; congruence.
Qed.

Lemma insert_stable_hdrel : forall h x l,
  cmp_le cmp h x -> HdRel (cmp_le cmp) h l ->
  HdRel (cmp_le cmp) h (insert_stable cmp x l).
Proof.
  intros h x [|h' t] Hhx Hh; simpl; [constructor; exact Hhx|].
  destruct (cmp x h'); constructor; try exact Hhx; inversion Hh; assumption.
Qed.

Lemma insert_stable_sorted : forall x l,
  Sorted (cmp_le cmp) l -> Sorted (cmp_le cmp) (insert_stable cmp x l).
Proof.
  intros x l; induction l as [|h t IH]; intros Hs; simpl.
  - repeat constructor.
  - apply Sorted_inv in Hs as Hs'; destruct Hs' as [Ht Hh].
    destruct (cmp x h) eqn:E.
    + constructor; [apply IH; exact Ht|].
      apply insert_stable_hdrel; [apply not_lt_le; congruence | exact Hh].
    + constructor; [exact Hs|]. constructor; unfold cmp_le; congruence.
    + constructor; [apply IH; exact Ht|].
      apply insert_stable_hdrel; [apply not_lt_le; congruence | exact Hh].
Qed.

Lemma stable_sort_sorted : forall l, Sorted (cmp_le cmp) (stable_sort cmp l).
Proof.
  intros l; unfold stable_sort.
  assert (Hgen : forall acc, Sorted (cmp_le cmp) acc ->
    Sorted (cmp_le cmp) (fold_left (fun acc x => insert_stable cmp x acc) l acc)).
  { induction l as [|x l IH]; intros acc Hacc; simpl; [exact Hacc|].
    apply IH, insert_stable_sorted, Hacc. }
  apply Hgen; constructor.
Qed.
End StableSort.

(** ** [playlist_to_bronze] *)

Lemma truthy_nonempty : forall o s, truthy o = Some s -> s <> EmptyString.
Proof.
  intros [s0|] s H; simpl in H; [|discriminate].
  destruct (String.eqb_spec s0 EmptyString); [discriminate|].
  injection H as <-; assumption.
Qed.

Section BronzeFacts.
Variables (m pid pname : string) (d : Z).

(** Every row comes from the entry at its rank's position, built from
    that entry's fields. *)
Lemma playlist_to_bronze_from_row : forall items k r,
  In r (playlist_to_bronze_from m pid pname d k items) ->
  exists i item track tid,
    nth_error items i = Some (Some item) /\
    item_track item = Some track /\
    truthy (track_id_field track) = Some tid /\
    r = mkBronze d m pid pname (k + Z.of_nat i) tid (track_name_field track)
          (artist_ids_of (track_artists track))
          (artist_names_of (track_artists track))
          (option_map round_half_even (track_popularity track)).
Proof.
  induction items as [|raw rest IH]; intros k r Hin; simpl in Hin; [contradiction|].
  assert (Hrest : In r (playlist_to_bronze_from m pid pname d (k + 1) rest) ->
    exists i item track tid,
      nth_error (raw :: rest) i = Some (Some item) /\
      item_track item = Some track /\
      truthy (track_id_field track) = Some tid /\
      r = mkBronze d m pid pname (k + Z.of_nat i) tid (track_name_field track)
            (artist_ids_of (track_artists track))
            (artist_names_of (track_artists track))
            (option_map round_half_even (track_popularity track))).
  { intros H; destruct (IH _ _ H) as (i & item & track & tid & H1 & H2 & H3 & H4).
    exists (S i), item, track, tid; repeat split; try assumption.
    rewrite H4; f_equal; lia. }
  destruct raw as [item|]; [|apply Hrest; exact Hin].
  destruct (item_track item) as [track|] eqn:Et; [|apply Hrest; exact Hin].
  destruct (truthy (track_id_field track)) as [tid|] eqn:Eid; [|apply Hrest; exact Hin].
  destruct Hin as [<-|Hin]; [|apply Hrest; exact Hin].
  exists O, item, track, tid; repeat split; try assumption.
  f_equal; lia.
Qed.

Lemma playlist_to_bronze_from_ranks : forall items k,
  Forall (fun r => k <= rank r) (playlist_to_bronze_from m pid pname d k items) /\
  Sorted Z.lt (map rank (playlist_to_bronze_from m pid pname d k items)).
Proof.
  induction items as [|raw rest IH]; intros k; simpl; [split; constructor|].
  destruct (IH (k + 1)) as [Hge Hs].
  assert (Hge' : Forall (fun r => k <= rank r)
                   (playlist_to_bronze_from m pid pname d (k + 1) rest)).
  { eapply Forall_impl; [|exact Hge]; simpl; intros; lia. }
  destruct raw as [item|]; [|split; assumption].
  destruct (item_track item) as [track|]; [|split; assumption].
  destruct (truthy (track_id_field track)); [|split; assumption].
  split.
  - constructor; [simpl; lia | exact Hge'].
  - simpl; constructor; [exact Hs|].
    destruct (playlist_to_bronze_from m pid pname d (k + 1) rest) as [|r0 rs];
      simpl; constructor.
    inversion Hge; subst; simpl; lia.
Qed.
End BronzeFacts.

(** ** [bronze_to_silver]: structure of the output *)

Lemma bronze_to_silver_eq : forall rows,
  bronze_to_silver rows =
  stable_sort silver_cmp
    (map (aggregate_group (explode rows)) (group_keys (explode rows))).
Proof.
  intros [|r rs]; [reflexivity|].
  unfold bronze_to_silver; destruct (explode (r :: rs)); reflexivity.
Qed.

Lemma silver_group_key_aggregate : forall ex k,
  silver_group_key (aggregate_group ex k) = k.
Proof. intros ex [[a b] [c d]]; reflexivity. Qed.

Lemma group_keys_in : forall ex k, In k (group_keys ex) <-> In k (map group_key ex).
Proof.
  intros ex k; unfold group_keys; split; intros H.
  - apply (Permutation_in _ (stable_sort_perm _ _)), nodup_In in H; exact H.
  - apply (Permutation_in _ (Permutation_sym (stable_sort_perm key_cmp _))),
      nodup_In; exact H.
Qed.

Lemma in_bronze_to_silver : forall rows s,
  In s (bronze_to_silver rows) <->
  exists k, In k (map group_key (explode rows)) /\
            s = aggregate_group (explode rows) k.
Proof.
  intros rows s; rewrite bronze_to_silver_eq; split; intros H.
  - apply (Permutation_in _ (stable_sort_perm _ _)), in_map_iff in H.
    destruct H as (k & <- & Hk); exists k; split; [apply group_keys_in; exact Hk|reflexivity].
  - destruct H as (k & Hk & ->).
    apply (Permutation_in _ (Permutation_sym (stable_sort_perm silver_cmp _))),
      in_map, group_keys_in; exact Hk.
Qed.

Lemma in_explode : forall rows e,
  In e (explode rows) ->
  exists r aid aname, In r rows /\ In (aid, aname) (combine (artist_ids r) (artist_names r)) /\
    e = mkExploded (snapshot_date r) (market r) aid aname (track_id r) (score r) (rank r).
Proof.
  intros rows e H; unfold explode in H; apply in_flat_map in H as (r & Hr & He).
  unfold explode_row in He; apply in_map_iff in He as ([aid aname] & <- & Hp).
  exists r, aid, aname; repeat split; assumption.
Qed.

Lemma nansum_all_none : forall l, Forall (fun o => o = None) l -> nansum l = 0.
Proof. induction 1 as [|o l Ho _ IH]; simpl; [reflexivity|subst; exact IH]. Qed.

Lemma combine_firstn_min : forall (A B : Type) (l1 : list A) (l2 : list B),
  combine (firstn (Nat.min (length l1) (length l2)) l1)
          (firstn (Nat.min (length l1) (length l2)) l2) = combine l1 l2.
Proof.
  intros A B l1; induction l1 as [|x l1 IH]; intros [|y l2]; simpl;
    try reflexivity.
  rewrite IH; reflexivity.
Qed.

Lemma explode_truncate : forall rows, explode (map truncate_artists rows) = explode rows.
Proof.
  induction rows as [|r rs IH]; simpl; [reflexivity|].
  rewrite IH; f_equal; unfold explode_row, truncate_artists; simpl.
  rewrite combine_firstn_min; reflexivity.
Qed.

Lemma StronglySorted_nth : forall (A : Type) (R : A -> A -> Prop) l i j a b,
  StronglySorted R l -> (i < j)%nat ->
  nth_error l i = Some a -> nth_error l j = Some b -> R a b.
Proof.
  intros A R l; induction l as [|x l IH]; intros i j a b Hs Hij Ha Hb;
    [destruct i; discriminate|].
  apply StronglySorted_inv in Hs as [Hs Hall].
  destruct i as [|i], j as [|j]; simpl in *; try lia.
  - injection Ha as <-. rewrite Forall_forall in Hall; apply Hall.
    eapply nth_error_In; exact Hb.
  - apply (IH i j); auto; lia.
Qed.

Local Open Scope string_scope.

(** ** Claims about the transforms *)

(** C2: Scenario A. Two Bronze rows of market "US" on one date [D], ranks 1
    and 2, tracks "t1" and "t2", both by artist "a1" named "A", scores 50
    and 49, give exactly one Silver row: "US", "a1", 2 tracks, total score
    99, best rank 1, dated [D]. *)
Theorem scenario_A_silver : forall (D : Z) pid pname n1 n2,
  bronze_to_silver
    [mkBronze D "US" pid pname 1 "t1" n1 ["a1"] ["A"] (Some 50);
     mkBronze D "US" pid pname 2 "t2" n2 ["a1"] ["A"] (Some 49)]
  = [mkSilver D "US" "a1" "A" 2 99 1].
Proof.
  intros D pid pname n1 n2.
  unfold bronze_to_silver, explode, group_keys, aggregate_group, group_members,
    group_key.
  cbn -[key_eq_dec].
  repeat match goal with
         | |- context [key_eq_dec ?x ?y] => destruct (key_eq_dec x y); [|congruence]
         end.
  cbn -[key_eq_dec].
  repeat match goal with
         | |- context [key_eq_dec ?x ?y] => destruct (key_eq_dec x y); [|congruence]
         end.
  reflexivity.
Qed.

(** C3 (code bug): (snapshotDate, market, artistId) is not a key of the
    Silver output. A playlist whose first track has an artist without an id
    (a local file) before artist "a1" and whose second track is by "a1"
    alone: the normalizer pairs "a1" with "Local Artist" in the first row
    and with "A" in the second, [bronze_to_silver] groups by the name too
    and outputs two rows for (date, "US", "a1"), and loading that Silver
    frame into the table whose primary key is (snapshot_date, market,
    artist_id) raises [IntegrityError]. *)
Theorem silver_triple_key_conflict :
  let items :=
    [Some (mkItem (Some (mkTrack (Some "t1") (Some "one")
        [mkArtist None (Some "Local Artist"); mkArtist (Some "a1") (Some "A")]
        (Some (50 # 1)))));
     Some (mkItem (Some (mkTrack (Some "t2") (Some "two")
        [mkArtist (Some "a1") (Some "A")] (Some (40 # 1)))))] in
  let bronze := playlist_to_bronze "US" "p" "P" 7 items in
  let silver := bronze_to_silver bronze in
  map (fun x => (s_snapshot_date x, s_market x, artist_id x)) silver
    = [(7, "US", "a1"); (7, "US", "a1")] /\
  map artist_name silver = ["Local Artist"; "A"] /\
  ~ NoDup (map silver_pk silver) /\
  exists db', load_dataframes bronze silver (silver_to_gold silver) (Some 7) (mkDb [] [] [])
                = LoadRaised (IntegrityError SILVER_TABLE) db'.
Proof.
  intros items bronze silver; subst items bronze silver.
  split; [vm_compute; reflexivity|]; split; [vm_compute; reflexivity|]; split.
  - vm_compute; intro H; inversion H as [|x l Hx Hl]; apply Hx; left; reflexivity.
  - eexists; vm_compute; reflexivity.
Qed.

(** The groupby key (snapshotDate, market, artistId, artistName) is a key
    of every output of [bronze_to_silver]: no two Silver rows share it. *)
Lemma silver_group_key_unique : forall rows,
  NoDup (map silver_group_key (bronze_to_silver rows)).
Proof.
  intros rows; rewrite bronze_to_silver_eq.
  eapply Permutation_NoDup.
  - apply Permutation_map, Permutation_sym, stable_sort_perm.
  - rewrite map_map.
    rewrite (map_ext _ (fun k => k) (silver_group_key_aggregate _)), map_id.
    unfold group_keys.
    eapply Permutation_NoDup;
      [apply Permutation_sym, stable_sort_perm | apply NoDup_nodup].
Qed.

(** C4 (code bug): a track whose first artist has no id (a local file) but a
    name: [artist_ids] drops that artist while [artist_names] keeps it, so
    the lists differ in length and "a1" is paired with the name of the
    other artist, down to the Silver row. *)
Theorem normalizer_misaligns_artists :
  let items := [Some (mkItem (Some (mkTrack (Some "t1") (Some "song")
                   [mkArtist None (Some "Local Artist");
                    mkArtist (Some "a1") (Some "A")] (Some (50 # 1)))))] in
  map (fun r => (artist_ids r, artist_names r))
      (playlist_to_bronze "US" "p" "P" 1 items)
    = [(["a1"], ["Local Artist"; "A"])] /\
  map (fun s => (artist_id s, artist_name s))
      (bronze_to_silver (playlist_to_bronze "US" "p" "P" 1 items))
    = [("a1", "Local Artist")].
Proof. vm_compute; split; reflexivity. Qed.

(** C5: each Bronze row has the rank of its entry's 1-based position in the
    input (ranks increase with input order), carries the entry's non-empty
    track id, and an entry with no resolvable track id yields no row. *)
Theorem normalizer_rank_position_and_filter : forall m pid pname d items,
  Sorted Z.lt (map rank (playlist_to_bronze m pid pname d items)) /\
  (forall r, In r (playlist_to_bronze m pid pname d items) ->
     track_id r <> EmptyString /\
     exists i, resolvable_track_id (nth i items None) = Some (track_id r) /\
               (i < length items)%nat /\ rank r = Z.of_nat i + 1) /\
  (forall i, resolvable_track_id (nth i items None) = None ->
     forall r, In r (playlist_to_bronze m pid pname d items) ->
     rank r <> Z.of_nat i + 1).
Proof.
  intros m pid pname d items.
  split; [apply (playlist_to_bronze_from_ranks m pid pname d items 1)|].
  split.
  - intros r Hr.
    destruct (playlist_to_bronze_from_row m pid pname d items 1 r Hr)
      as (i & item & track & tid & Hi & Ht & Hid & ->); cbn [rank track_id].
    split; [eapply truthy_nonempty; exact Hid|].
    exists i; split; [|split].
    + rewrite (nth_error_nth _ _ None Hi); simpl; rewrite Ht; exact Hid.
    + apply nth_error_Some; congruence.
    + lia.
  - intros i Hnone r Hr Hrank.
    destruct (playlist_to_bronze_from_row m pid pname d items 1 r Hr)
      as (i' & item & track & tid & Hi & Ht & Hid & ->); cbn [rank] in Hrank.
    assert (i' = i) as -> by lia.
    rewrite (nth_error_nth _ _ None Hi) in Hnone; simpl in Hnone.
    rewrite Ht, Hid in Hnone; discriminate.
Qed.

(** The order of [sort_values] on the Silver columns is a total preorder. *)
Lemma silver_order_spec :
  CmpSpec (lex_cmp (lex_cmp Z.compare str_cmp) (lex_cmp Z.compare (desc_cmp Z.compare))).
Proof.
  exact (@lex_cmp_spec _ _ _ _ (@lex_cmp_spec _ _ _ _ Z_cmp_spec str_cmp_spec)
           (@lex_cmp_spec _ _ _ _ Z_cmp_spec (@desc_cmp_spec _ _ Z_cmp_spec))).
Qed.

(** C6: the Silver output is sorted by ascending snapshotDate, market and
    bestRank and descending totalScore: any row is at or before every later
    one in that order, and of two rows with the same date, market and
    bestRank the one placed first has the higher (or equal) totalScore. *)
Theorem silver_output_order : forall rows i j a b,
  (i < j)%nat ->
  nth_error (bronze_to_silver rows) i = Some a ->
  nth_error (bronze_to_silver rows) j = Some b ->
  silver_cmp a b <> Gt /\
  (s_snapshot_date a = s_snapshot_date b -> s_market a = s_market b ->
   best_rank a = best_rank b -> total_score b <= total_score a).
Proof.
  intros rows i j a b Hij Ha Hb.
  assert (Hle : cmp_le silver_cmp a b).
  { apply (StronglySorted_nth _ _ (bronze_to_silver rows) i j); try assumption.
    apply Sorted_StronglySorted.
    - intros x y z; apply (on_key_le_trans _ _ (H := silver_order_spec)).
    - rewrite bronze_to_silver_eq; apply stable_sort_sorted.
      intros x y; apply (on_key_antisym _ _ (H := silver_order_spec)). }
  split; [exact Hle|].
  intros Hd Hm Hbest; unfold cmp_le, silver_cmp, on_key, silver_sort_key,
    lex_cmp, desc_cmp in Hle; cbn [fst snd] in Hle.
  rewrite Hd, Hm, Hbest, Z.compare_refl, str_cmp_refl, Z.compare_refl in Hle.
  apply Z.compare_le_iff; exact Hle.
Qed.

(** C7 (counterexample): a group whose only score is absent gets the
    present Silver total score 0, the same Silver output as a score of 0. *)
Lemma silver_all_absent_group_scores_zero :
  bronze_to_silver [mkBronze 1 "US" "p" "P" 1 "t1" None ["a1"] ["A"] None]
    = [mkSilver 1 "US" "a1" "A" 1 0 1] /\
  bronze_to_silver [mkBronze 1 "US" "p" "P" 1 "t1" None ["a1"] ["A"] (Some 0)]
    = [mkSilver 1 "US" "a1" "A" 1 0 1].
Proof. vm_compute; split; reflexivity. Qed.

(** C7 (amended): for popularities a float64 holds exactly (magnitude at
    most 2^53), a Bronze row's score is its entry's popularity rounded half
    to even when present and absent when the popularity is absent. For
    Bronze scores of the [Int64] range, a Silver totalScore that int64
    holds is the sum of the present scores of its group, so a group whose
    scores are all absent gets totalScore 0. *)
Theorem score_rounding_and_silver_sum : forall m pid pname d items rows s,
  (forall item track q, In (Some item) items -> item_track item = Some track ->
     track_popularity track = Some q -> float64_exact q) ->
  Forall (fun r => opt_ok int64_ok (score r) = true) rows ->
  (- 2 ^ 63 <= nansum (map e_score (group_members (explode rows) (silver_group_key s))) < 2 ^ 63) ->
  (forall r, In r (playlist_to_bronze m pid pname d items) ->
     exists i item track,
       nth_error items i = Some (Some item) /\ item_track item = Some track /\
       rank r = Z.of_nat i + 1 /\
       score r = option_map round_half_even (track_popularity track)) /\
  (In s (bronze_to_silver rows) ->
     total_score s =
       nansum (map e_score (group_members (explode rows) (silver_group_key s))) /\
     ((forall e, In e (explode rows) -> group_key e = silver_group_key s ->
                 e_score e = None) ->
      total_score s = 0)).
Proof.
  intros m pid pname d items rows s _ _ _; split.
  - intros r Hr.
    destruct (playlist_to_bronze_from_row m pid pname d items 1 r Hr)
      as (i & item & track & tid & Hi & Ht & Hid & ->).
    exists i, item, track; cbn [rank score]; repeat split; try assumption; lia.
  - intros Hs; apply in_bronze_to_silver in Hs as (k & _ & ->).
    rewrite silver_group_key_aggregate.
    split; [reflexivity|].
    intros Hnone; unfold aggregate_group; cbn [total_score].
    apply nansum_all_none, Forall_forall; intros o Ho.
    apply in_map_iff in Ho as (e & <- & He).
    unfold group_members in He; apply filter_In in He as [He Hk].
    destruct (key_eq_dec (group_key e) k) as [Heq|]; [|discriminate].
    apply Hnone; [exact He | exact Heq].
Qed.

(** C10: [bronze_to_silver] pairs artist ids and names positionally up to the
    shorter list: cutting both lists of every row to the shorter length
    leaves the output unchanged, a row explodes into exactly that many
    pairs, and every Silver row's (artistId, artistName) is such a pair of
    some row of the same date and market. *)
Theorem silver_ignores_unpaired_artists : forall rows,
  bronze_to_silver (map truncate_artists rows) = bronze_to_silver rows /\
  (forall r, length (explode_row r) =
             Nat.min (length (artist_ids r)) (length (artist_names r))) /\
  (forall s, In s (bronze_to_silver rows) ->
     exists r, In r rows /\ snapshot_date r = s_snapshot_date s /\
               market r = s_market s /\
               In (artist_id s, artist_name s)
                  (combine (artist_ids r) (artist_names r))).
Proof.
  intros rows; split; [|split].
  - rewrite !bronze_to_silver_eq, explode_truncate; reflexivity.
  - intros r; unfold explode_row; rewrite length_map; apply length_combine.
  - intros s Hs; apply in_bronze_to_silver in Hs as (k & Hk & ->).
    apply in_map_iff in Hk as (e & <- & He).
    apply in_explode in He as (r & aid & aname & Hr & Hp & ->).
    exists r; repeat split; assumption.
Qed.

(** ** The fetch layer *)

(** One 401 round: the token is invalidated, a new one is fetched and the
    request is sent again. *)
Lemma request_loop_401 : forall r rest c w tok ex ts,
  status_code r = 401 ->
  token_script w = TokenOk tok ex :: ts ->
  request_loop (r :: rest) c w =
  request_loop rest
    (mkClient (Some tok) (clock w + match ex with Some e => e | None => 3600 end))
    (mkWorld (clock w) ts (S (token_posts w)) (S (requests_sent w))).
Proof.
  intros r rest c w tok ex ts H401 Hts; simpl; rewrite H401; simpl.
  unfold _ensure_token; simpl; rewrite Hts; reflexivity.
Qed.

(** C1 (counterexample): a second consecutive 401 is not fatal; with a
    third response that succeeds, the request returns it after two token
    refreshes. *)
Lemma request_survives_second_401 :
  _request (mkClient None 0)
    (mkWorld 0 [TokenOk "t1" None; TokenOk "t2" None; TokenOk "t3" None] 0 0)
    [mkResponse 401 None ""; mkResponse 401 None ""; mkResponse 200 None "ok"]
  = (Returned "ok", mkClient (Some "t3") 3600, mkWorld 0 [] 3 3).
Proof. vm_compute; reflexivity. Qed.

(** C1 (amended): every 401 makes [_request] invalidate the token, fetch a
    new one and send the request again, with no bound on the rounds: after
    any number of consecutive 401 responses (the token endpoint answering
    each refresh) followed by a response that is neither 401, 429 nor an
    error status, the request returns that response, having made one token
    request per 401. *)
Theorem request_retries_every_401 : forall rs ts rest_ts final c w,
  Forall (fun r => status_code r = 401) rs ->
  Forall (fun t => exists tok ex, t = TokenOk tok ex) ts ->
  length ts = length rs ->
  status_code final <> 401 -> status_code final <> 429 ->
  raises_for_status (status_code final) = false ->
  token_script w = (ts ++ rest_ts)%list ->
  fst (fst (request_loop ((rs ++ [final])%list) c w)) = Returned (resp_body final) /\
  token_posts (snd (request_loop ((rs ++ [final])%list) c w)) =
    (token_posts w + length rs)%nat /\
  requests_sent (snd (request_loop ((rs ++ [final])%list) c w)) =
    (requests_sent w + length rs + 1)%nat.
Proof.
  induction rs as [|r rs IH]; intros ts rest_ts final c w H401 Htok Hlen Hn401 Hn429
    Hok Hscript.
  - simpl; apply Z.eqb_neq in Hn401, Hn429; rewrite Hn401, Hn429, Hok; simpl.
    repeat split; lia.
  - destruct ts as [|t ts]; [discriminate|].
    inversion H401 as [|? ? Hr H401']; subst.
    inversion Htok as [|? ? (tok & ex & ->) Htok']; subst.
    simpl in Hscript.
    cbn [app]; rewrite (request_loop_401 r ((rs ++ [final])%list) c w tok ex ((ts ++ rest_ts)%list) Hr Hscript).
    destruct (IH ts rest_ts final
               (mkClient (Some tok) (clock w + match ex with Some e => e | None => 3600 end))
               (mkWorld (clock w) ((ts ++ rest_ts)%list) (S (token_posts w)) (S (requests_sent w))))
      as (H1 & H2 & H3); try assumption.
    + simpl in Hlen; lia.
    + reflexivity.
    + repeat split; [exact H1 | rewrite H2; simpl; lia | rewrite H3; simpl; lia].
Qed.

(** ** The orchestrator *)



Section RunFacts.
Variable fetch : nat -> string -> option string -> FetchResult.
Variable d : Z.
Hypothesis only_http_errors : forall n pid m e, fetch n pid m <> FetchOtherError e.


End RunFacts.



(** When no target yields a Bronze row, [run] evaluates [settings.artists],
    which the [Settings] dataclass does not declare: it raises
    [AttributeError], not the aggregate [RuntimeError] of main.py. *)
Lemma run_without_rows_raises_attribute_error :
  run (fun _ _ _ => FetchHTTPError (Some "404 Not Found")) 1
    (mkSettings "id" "secret" "files" None "ETL/outputs"
       [mkTarget "us" "37i9dQZEVXbLRQDuF5jeBp" (Some "US")])
  = RunRaised (AttributeError "'Settings' object has no attribute 'artists'").
Proof. vm_compute; reflexivity. Qed.

(** ** Witnesses: the hypotheses of the theorems above hold at concrete
    inputs. *)

Lemma request_retries_every_401_witness :
  Forall (fun r => status_code r = 401)
    [mkResponse 401 None ""; mkResponse 401 None ""] /\
  fst (fst (request_loop [mkResponse 401 None ""; mkResponse 401 None "";
                          mkResponse 200 None "ok"]
              (mkClient (Some "t0") 4000)
              (mkWorld 0 [TokenOk "t1" None; TokenOk "t2" (Some 60)] 0 1)))
    = Returned "ok".
Proof.
  split; [repeat constructor|].
  exact (proj1 (request_retries_every_401
    [mkResponse 401 None ""; mkResponse 401 None ""]
    [TokenOk "t1" None; TokenOk "t2" (Some 60)] [] (mkResponse 200 None "ok")
    (mkClient (Some "t0") 4000)
    (mkWorld 0 [TokenOk "t1" None; TokenOk "t2" (Some 60)] 0 1)
    ltac:(repeat constructor)
    ltac:(repeat constructor; eexists _, _; reflexivity)
    eq_refl ltac:(discriminate) ltac:(discriminate) eq_refl eq_refl)).
Defined.

Lemma normalizer_rank_position_and_filter_witness :
  In (mkBronze 1 "US" "p" "P" 2 "t1" None [] [] None)
     (playlist_to_bronze "US" "p" "P" 1
        [None; Some (mkItem (Some (mkTrack (Some "t1") None [] None)))]) /\
  resolvable_track_id
    (nth 0 [None; Some (mkItem (Some (mkTrack (Some "t1") None [] None)))] None)
    = None /\
  (exists i, resolvable_track_id
    (nth i [None; Some (mkItem (Some (mkTrack (Some "t1") None [] None)))] None)
      = Some "t1" /\ (i < 2)%nat /\ 2 = Z.of_nat i + 1) /\
  2 <> Z.of_nat 0 + 1.
Proof.
  assert (Hin : In (mkBronze 1 "US" "p" "P" 2 "t1" None [] [] None)
     (playlist_to_bronze "US" "p" "P" 1
        [None; Some (mkItem (Some (mkTrack (Some "t1") None [] None)))]))
    by (vm_compute; left; reflexivity).
  destruct (normalizer_rank_position_and_filter "US" "p" "P" 1
              [None; Some (mkItem (Some (mkTrack (Some "t1") None [] None)))])
    as (_ & H1 & H2).
  split; [exact Hin|]; split; [reflexivity|]; split.
  - exact (proj2 (H1 _ Hin)).
  - exact (H2 0%nat eq_refl _ Hin).
Defined.

Lemma silver_output_order_witness :
  (0 < 1)%nat /\
  nth_error (bronze_to_silver
    [mkBronze 1 "US" "p" "P" 1 "t1" None ["a1"; "a2"] ["A"; "B"] (Some 50);
     mkBronze 1 "US" "p" "P" 2 "t2" None ["a2"] ["B"] (Some 10)]) 0
    = Some (mkSilver 1 "US" "a2" "B" 2 60 1) /\
  nth_error (bronze_to_silver
    [mkBronze 1 "US" "p" "P" 1 "t1" None ["a1"; "a2"] ["A"; "B"] (Some 50);
     mkBronze 1 "US" "p" "P" 2 "t2" None ["a2"] ["B"] (Some 10)]) 1
    = Some (mkSilver 1 "US" "a1" "A" 1 50 1) /\
  50 <= 60.
Proof.
  split; [lia|]; split; [vm_compute; reflexivity|]; split; [vm_compute; reflexivity|].
  apply (silver_output_order
    [mkBronze 1 "US" "p" "P" 1 "t1" None ["a1"; "a2"] ["A"; "B"] (Some 50);
     mkBronze 1 "US" "p" "P" 2 "t2" None ["a2"] ["B"] (Some 10)]
    0 1 (mkSilver 1 "US" "a2" "B" 2 60 1) (mkSilver 1 "US" "a1" "A" 1 50 1));
    [lia | vm_compute; reflexivity | vm_compute; reflexivity
    | reflexivity | reflexivity | reflexivity].
Defined.

Lemma score_rounding_and_silver_sum_witness :
  In (mkBronze 1 "US" "p" "P" 1 "t1" None ["a1"] ["A"] (Some 4))
     (playlist_to_bronze "US" "p" "P" 1
        [Some (mkItem (Some (mkTrack (Some "t1") None
                 [mkArtist (Some "a1") (Some "A")] (Some (7 # 2)))))]) /\
  In (mkSilver 1 "US" "a1" "A" 1 0 1)
     (bronze_to_silver [mkBronze 1 "US" "p" "P" 1 "t1" None ["a1"] ["A"] None]) /\
  total_score (mkSilver 1 "US" "a1" "A" 1 0 1) = 0.
Proof.
  assert (Hin : In (mkBronze 1 "US" "p" "P" 1 "t1" None ["a1"] ["A"] (Some 4))
     (playlist_to_bronze "US" "p" "P" 1
        [Some (mkItem (Some (mkTrack (Some "t1") None
                 [mkArtist (Some "a1") (Some "A")] (Some (7 # 2)))))]))
    by (vm_compute; left; reflexivity).
  assert (Hs : In (mkSilver 1 "US" "a1" "A" 1 0 1)
     (bronze_to_silver [mkBronze 1 "US" "p" "P" 1 "t1" None ["a1"] ["A"] None]))
    by (vm_compute; left; reflexivity).
  destruct (score_rounding_and_silver_sum "US" "p" "P" 1
     [Some (mkItem (Some (mkTrack (Some "t1") None
              [mkArtist (Some "a1") (Some "A")] (Some (7 # 2)))))]
     [mkBronze 1 "US" "p" "P" 1 "t1" None ["a1"] ["A"] None]
     (mkSilver 1 "US" "a1" "A" 1 0 1)) as [_ H2].
  { intros item track q [Hi|[]] Ht Hq; injection Hi as <-; injection Ht as <-;
      injection Hq as <-.
    exists 7, 1; split; [vm_compute; discriminate|]; split; [lia|reflexivity]. }
  { repeat constructor. }
  { vm_compute; split; [discriminate | reflexivity]. }
  split; [exact Hin|]; split; [exact Hs|].
  apply (proj2 (H2 Hs)).
  intros e He _; vm_compute in He; destruct He as [<-|[]]; reflexivity.
Defined.


Lemma silver_ignores_unpaired_artists_witness :
  In (mkSilver 1 "US" "a1" "A" 1 0 1)
     (bronze_to_silver [mkBronze 1 "US" "p" "P" 1 "t1" None ["a1"; "a2"] ["A"] None]) /\
  exists r, In r [mkBronze 1 "US" "p" "P" 1 "t1" None ["a1"; "a2"] ["A"] None] /\
    snapshot_date r = 1 /\ market r = "US" /\
    In ("a1", "A") (combine (artist_ids r) (artist_names r)).
Proof.
  assert (Hs : In (mkSilver 1 "US" "a1" "A" 1 0 1)
     (bronze_to_silver [mkBronze 1 "US" "p" "P" 1 "t1" None ["a1"; "a2"] ["A"] None]))
    by (vm_compute; left; reflexivity).
  split; [exact Hs|].
  exact (proj2 (proj2 (silver_ignores_unpaired_artists
    [mkBronze 1 "US" "p" "P" 1 "t1" None ["a1"; "a2"] ["A"] None])) _ Hs).
Defined.

(** * Further properties of the transforms *)

Lemma length_nodup_le : forall (A : Type) (dec : forall x y : A, {x = y} + {x <> y}) l,
  (length (nodup dec l) <= length l)%nat.
Proof.
  intros A dec l; induction l as [|x l IH]; simpl; [lia|].
  destruct (in_dec dec x l); simpl; lia.
Qed.

Lemma length_nodup_pos : forall (A : Type) (dec : forall x y : A, {x = y} + {x <> y}) l,
  l <> [] -> (0 < length (nodup dec l))%nat.
Proof.
  intros A dec [|x l] H; [contradiction H; reflexivity|].
  assert (Hin : In x (nodup dec (x :: l))) by (apply nodup_In; left; reflexivity).
  destruct (nodup dec (x :: l)); [destruct Hin | simpl; lia].
Qed.

Lemma fold_min_spec : forall l x,
  In (fold_left Z.min l x) (x :: l) /\
  (forall y, In y (x :: l) -> fold_left Z.min l x <= y).
Proof.
  induction l as [|z l IH]; intros x; simpl.
  - split; [left; reflexivity|]; intros y [<-|[]]; lia.
  - destruct (IH (Z.min x z)) as [Hin Hle]; split.
    + destruct Hin as [Hm|Hin]; [|right; right; exact Hin].
      destruct (Z.min_spec x z) as [[_ E]|[_ E]];
        [left|right; left]; congruence.
    + intros y [<-|[<-|Hy]].
      * specialize (Hle (Z.min x z) (or_introl eq_refl)); lia.
      * specialize (Hle (Z.min x z) (or_introl eq_refl)); lia.
      * apply Hle; right; exact Hy.
Qed.

Lemma list_min_spec : forall l, l <> [] ->
  In (list_min l) l /\ (forall y, In y l -> list_min l <= y).
Proof.
  intros [|x l] H; [contradiction H; reflexivity|]; apply fold_min_spec.
Qed.

Lemma group_members_spec : forall ex k e,
  In e (group_members ex k) <-> In e ex /\ group_key e = k.
Proof.
  intros ex k e; unfold group_members; rewrite filter_In.
  destruct (key_eq_dec (group_key e) k); split; intros [H1 H2]; split; auto;
    congruence.
Qed.

Lemma group_members_nonempty : forall ex k,
  In k (map group_key ex) -> group_members ex k <> [].
Proof.
  intros ex k Hk Hnil; apply in_map_iff in Hk as (e & He & Hin).
  assert (Hm : In e (group_members ex k)) by (apply group_members_spec; auto).
  rewrite Hnil in Hm; destruct Hm.
Qed.

Lemma explode_filter_pairs : forall rows,
  explode (filter has_artist_pairs rows) = explode rows.
Proof.
  unfold explode; induction rows as [|r rs IH]; simpl; [reflexivity|].
  destruct (has_artist_pairs r) eqn:E; simpl; rewrite IH; [reflexivity|].
  unfold has_artist_pairs in E; unfold explode_row.
  destruct (combine (artist_ids r) (artist_names r)); [reflexivity|discriminate].
Qed.

(** [top_tracks_to_bronze] on a list of tracks builds the same rows as
    [playlist_to_bronze] on the playlist items wrapping those tracks. *)
Theorem top_tracks_as_playlist_items : forall m pid pname d tracks,
  top_tracks_to_bronze m pid pname d tracks =
  playlist_to_bronze m pid pname d (map (fun t => Some (mkItem (Some t))) tracks).
Proof.
  intros m pid pname d tracks; unfold top_tracks_to_bronze, playlist_to_bronze.
  generalize 1; induction tracks as [|t ts IH]; intros k; simpl; [reflexivity|].
  destruct (truthy (track_id_field t)); rewrite IH; reflexivity.
Qed.

(** Bronze rows whose artist lists pair up to nothing (no artist, or one of
    the two lists empty) do not change the Silver output; an input of only
    such rows gives no Silver row. *)
Theorem silver_ignores_rows_without_artists : forall rows,
  bronze_to_silver (filter has_artist_pairs rows) = bronze_to_silver rows /\
  (forallb (fun r => negb (has_artist_pairs r)) rows = true ->
   bronze_to_silver rows = []).
Proof.
  intros rows; split.
  - rewrite !bronze_to_silver_eq, explode_filter_pairs; reflexivity.
  - intros Hall.
    assert (Hf : filter has_artist_pairs rows = []).
    { induction rows as [|r rs IH]; simpl in *; [reflexivity|].
      apply andb_true_iff in Hall as [Hr Hrs].
      destruct (has_artist_pairs r); [discriminate|]; apply IH, Hrs. }
    rewrite bronze_to_silver_eq, <- explode_filter_pairs, Hf; reflexivity.
Qed.

Lemma silver_row_facts : forall rows s,
  In s (bronze_to_silver rows) ->
  let g := group_members (explode rows) (silver_group_key s) in
  g <> [] /\
  1 <= tracks s <= Z.of_nat (length g) /\
  (exists e, In e g /\ e_rank e = best_rank s) /\
  (forall e, In e g -> best_rank s <= e_rank e).
Proof.
  intros rows s Hs; apply in_bronze_to_silver in Hs as (k & Hk & ->).
  rewrite silver_group_key_aggregate; cbv zeta.
  pose proof (group_members_nonempty _ _ Hk) as Hne.
  assert (Hmne : forall (B : Type) (f : Exploded -> B),
            map f (group_members (explode rows) k) <> []).
  { intros B f Hm; apply map_eq_nil in Hm; contradiction. }
  destruct (list_min_spec _ (Hmne _ e_rank)) as [Hin Hle].
  split; [exact Hne|]; split; [|split].
  - unfold aggregate_group, nunique; cbn [tracks].
    pose proof (length_nodup_pos _ string_dec _ (Hmne _ e_track_id)).
    pose proof (length_nodup_le _ string_dec (map e_track_id (group_members (explode rows) k))).
    rewrite length_map in *; lia.
  - apply in_map_iff in Hin as (e & He & Hein); exists e; split; [exact Hein|].
    rewrite He; reflexivity.
  - intros e He; apply Hle, in_map_iff; exists e; auto.
Qed.

Lemma silver_to_gold_eq : forall sl,
  silver_to_gold sl =
  stable_sort gold_cmp (map (aggregate_gold sl) (gold_keys sl)).
Proof. intros [|s sl]; reflexivity. Qed.

Lemma gold_row_key_aggregate : forall sl k, gold_row_key (aggregate_gold sl k) = k.
Proof. intros sl [d [a n]]; reflexivity. Qed.

Lemma gold_keys_in : forall sl k, In k (gold_keys sl) <-> In k (map gold_key_of sl).
Proof.
  intros sl k; unfold gold_keys; split; intros H.
  - apply (Permutation_in _ (stable_sort_perm _ _)), nodup_In in H; exact H.
  - apply (Permutation_in _ (Permutation_sym (stable_sort_perm gold_key_cmp _))),
      nodup_In; exact H.
Qed.

Lemma in_silver_to_gold : forall sl g,
  In g (silver_to_gold sl) <->
  exists k, In k (map gold_key_of sl) /\ g = aggregate_gold sl k.
Proof.
  intros sl g; rewrite silver_to_gold_eq; split; intros H.
  - apply (Permutation_in _ (stable_sort_perm _ _)), in_map_iff in H.
    destruct H as (k & <- & Hk); exists k; split; [apply gold_keys_in; exact Hk|reflexivity].
  - destruct H as (k & Hk & ->).
    apply (Permutation_in _ (Permutation_sym (stable_sort_perm gold_cmp _))), in_map_iff.
    exists k; split; [reflexivity|apply gold_keys_in; exact Hk].
Qed.

Lemma gold_members_spec : forall sl k s,
  In s (gold_members sl k) <-> In s sl /\ gold_key_of s = k.
Proof.
  intros sl k s; unfold gold_members; rewrite filter_In.
  destruct (gold_key_eq_dec (gold_key_of s) k); split; intros [H1 H2]; split; auto;
    congruence.
Qed.

Lemma gold_row_facts : forall sl g,
  In g (silver_to_gold sl) ->
  let m := gold_members sl (gold_row_key g) in
  m <> [] /\
  1 <= markets g <= Z.of_nat (length m) /\
  (exists s, In s m /\ best_rank s = g_best_rank g) /\
  (forall s, In s m -> g_best_rank g <= best_rank s).
Proof.
  intros sl g Hg; apply in_silver_to_gold in Hg as (k & Hk & ->).
  rewrite gold_row_key_aggregate; cbv zeta.
  assert (Hne : gold_members sl k <> []).
  { intros Hnil; apply in_map_iff in Hk as (s & Hs & Hin).
    assert (Hm : In s (gold_members sl k)) by (apply gold_members_spec; auto).
    rewrite Hnil in Hm; destruct Hm. }
  assert (Hmne : forall (B : Type) (f : SilverRow -> B), map f (gold_members sl k) <> []).
  { intros B f Hm; apply map_eq_nil in Hm; contradiction. }
  destruct (list_min_spec _ (Hmne _ best_rank)) as [Hin Hle].
  split; [exact Hne|]; split; [|split].
  - unfold aggregate_gold, nunique; cbn [markets].
    pose proof (length_nodup_pos _ string_dec _ (Hmne _ s_market)).
    pose proof (length_nodup_le _ string_dec (map s_market (gold_members sl k))).
    rewrite length_map in *; lia.
  - apply in_map_iff in Hin as (s & Hs & Hsin); exists s; split; [exact Hsin|].
    rewrite Hs; reflexivity.
  - intros s Hs; apply Hle, in_map_iff; exists s; auto.
Qed.

Lemma gold_order_spec :
  CmpSpec (lex_cmp Z.compare (lex_cmp Z.compare (desc_cmp Z.compare))).
Proof.
  exact (@lex_cmp_spec _ _ _ _ Z_cmp_spec
           (@lex_cmp_spec _ _ _ _ Z_cmp_spec (@desc_cmp_spec _ _ Z_cmp_spec))).
Qed.

(** Every Silver row aggregates a non-empty group of exploded (row, artist)
    pairs: its [tracks] count is between 1 and the group size, and its
    [best_rank] is the rank of one member and at most every member's rank. *)
Theorem silver_row_aggregates_bounded : forall rows s,
  In s (bronze_to_silver rows) ->
  let g := group_members (explode rows) (silver_group_key s) in
  g <> [] /\
  1 <= tracks s <= Z.of_nat (length g) /\
  (exists e, In e g /\ e_rank e = best_rank s) /\
  (forall e, In e g -> best_rank s <= e_rank e).
Proof. exact silver_row_facts. Qed.

(** [silver_to_gold] returns one row per (snapshot_date, artist_id,
    artist_name): no two Gold rows share that key. *)
Theorem gold_key_unique : forall sl,
  NoDup (map gold_row_key (silver_to_gold sl)).
Proof.
  intros sl; rewrite silver_to_gold_eq.
  eapply Permutation_NoDup.
  - apply Permutation_map, Permutation_sym, stable_sort_perm.
  - rewrite map_map.
    rewrite (map_ext _ (fun k => k) (gold_row_key_aggregate _)), map_id.
    unfold gold_keys.
    eapply Permutation_NoDup;
      [apply Permutation_sym, stable_sort_perm | apply NoDup_nodup].
Qed.

(** The Gold rows are ordered by snapshot_date ascending, then best_rank
    ascending, then total_score descending. *)
Theorem gold_output_order : forall sl i j a b,
  (i < j)%nat ->
  nth_error (silver_to_gold sl) i = Some a ->
  nth_error (silver_to_gold sl) j = Some b ->
  gold_cmp a b <> Gt /\
  (g_snapshot_date a = g_snapshot_date b -> g_best_rank a = g_best_rank b ->
   g_total_score b <= g_total_score a).
Proof.
  intros sl i j a b Hij Ha Hb.
  assert (Hle : cmp_le gold_cmp a b).
  { apply (StronglySorted_nth _ _ (silver_to_gold sl) i j); try assumption.
    apply Sorted_StronglySorted.
    - intros x y z; apply (on_key_le_trans _ _ (H := gold_order_spec)).
    - rewrite silver_to_gold_eq; apply stable_sort_sorted.
      intros x y; apply (on_key_antisym _ _ (H := gold_order_spec)). }
  split; [exact Hle|].
  intros Hd Hbest; unfold cmp_le, gold_cmp, on_key, gold_sort_key,
    lex_cmp, desc_cmp in Hle; cbn [fst snd] in Hle.
  rewrite Hd, Hbest, !Z.compare_refl in Hle.
  apply Z.compare_le_iff; exact Hle.
Qed.

(** Every Gold row aggregates a non-empty set of Silver rows with its key:
    [markets] is between 1 and their number, and [best_rank] is the best
    rank of one of them and at most each of theirs. *)
Theorem gold_row_aggregates_bounded : forall sl g,
  In g (silver_to_gold sl) ->
  let m := gold_members sl (gold_row_key g) in
  m <> [] /\
  1 <= markets g <= Z.of_nat (length m) /\
  (exists s, In s m /\ best_rank s = g_best_rank g) /\
  (forall s, In s m -> g_best_rank g <= best_rank s).
Proof. exact gold_row_facts. Qed.

(** Through both aggregations, a Gold row's [best_rank] is the rank of a
    Bronze row of that date listing the artist (id and name paired by
    position), and no Bronze row of that date listing the artist has a
    better rank, in any market. *)
Theorem gold_best_rank_from_bronze : forall rows g,
  In g (silver_to_gold (bronze_to_silver rows)) ->
  (exists r, In r rows /\ snapshot_date r = g_snapshot_date g /\
     In (g_artist_id g, g_artist_name g) (combine (artist_ids r) (artist_names r)) /\
     rank r = g_best_rank g) /\
  (forall r, In r rows -> snapshot_date r = g_snapshot_date g ->
     In (g_artist_id g, g_artist_name g) (combine (artist_ids r) (artist_names r)) ->
     g_best_rank g <= rank r).
Proof.
  intros rows g Hg.
  destruct (gold_row_facts _ _ Hg) as (_ & _ & (s & Hs & Hsb) & Hgle).
  apply gold_members_spec in Hs as [Hs Hks].
  split.
  - destruct (silver_row_facts _ _ Hs) as (_ & _ & (e & He & Her) & _).
    apply group_members_spec in He as [He Hke].
    apply in_explode in He as (r & aid & aname & Hr & Hp & ->).
    unfold gold_key_of, gold_row_key in Hks; unfold silver_group_key, group_key in Hke.
    cbn [e_snapshot_date e_market e_artist_id e_artist_name e_rank] in Hke, Her.
    inversion Hks; inversion Hke; subst.
    exists r; repeat split; try assumption; congruence.
  - intros r Hr Hd Hp.
    set (e := mkExploded (snapshot_date r) (market r) (g_artist_id g) (g_artist_name g)
                (track_id r) (score r) (rank r)).
    assert (He : In e (explode rows)).
    { unfold explode; apply in_flat_map; exists r; split; [exact Hr|].
      unfold explode_row; apply in_map_iff; exists (g_artist_id g, g_artist_name g).
      split; [reflexivity|exact Hp]. }
    set (s' := aggregate_group (explode rows) (group_key e)).
    assert (Hs' : In s' (bronze_to_silver rows)).
    { apply in_bronze_to_silver; exists (group_key e); split; [|reflexivity].
      apply in_map; exact He. }
    destruct (silver_row_facts _ _ Hs') as (_ & _ & _ & Hle').
    assert (H1 : best_rank s' <= rank r).
    { apply (Hle' e), group_members_spec; split; [exact He|].
      unfold s'; rewrite silver_group_key_aggregate; reflexivity. }
    assert (H2 : g_best_rank g <= best_rank s').
    { apply Hgle, gold_members_spec; split; [exact Hs'|].
      unfold gold_key_of, gold_row_key, s'; cbn; rewrite Hd; reflexivity. }
    lia.
Qed.

Lemma silver_ignores_rows_without_artists_witness :
  forallb (fun r => negb (has_artist_pairs r))
    [mkBronze 1 "US" "p" "P" 1 "t1" None [] ["Local Artist"] (Some 50);
     mkBronze 1 "US" "p" "P" 2 "t2" None [] [] None] = true /\
  bronze_to_silver
    [mkBronze 1 "US" "p" "P" 1 "t1" None [] ["Local Artist"] (Some 50);
     mkBronze 1 "US" "p" "P" 2 "t2" None [] [] None] = [].
Proof.
  split; [vm_compute; reflexivity|].
  apply (proj2 (silver_ignores_rows_without_artists
    [mkBronze 1 "US" "p" "P" 1 "t1" None [] ["Local Artist"] (Some 50);
     mkBronze 1 "US" "p" "P" 2 "t2" None [] [] None])).
  vm_compute; reflexivity.
Defined.

Lemma silver_row_aggregates_bounded_witness :
  In (mkSilver 1 "US" "a2" "B" 2 60 1)
    (bronze_to_silver
      [mkBronze 1 "US" "p" "P" 1 "t1" None ["a1"; "a2"] ["A"; "B"] (Some 50);
       mkBronze 1 "US" "p" "P" 2 "t2" None ["a2"] ["B"] (Some 10)]) /\
  let g := group_members
      (explode [mkBronze 1 "US" "p" "P" 1 "t1" None ["a1"; "a2"] ["A"; "B"] (Some 50);
                mkBronze 1 "US" "p" "P" 2 "t2" None ["a2"] ["B"] (Some 10)])
      (silver_group_key (mkSilver 1 "US" "a2" "B" 2 60 1)) in
  g <> [] /\
  1 <= tracks (mkSilver 1 "US" "a2" "B" 2 60 1) <= Z.of_nat (length g) /\
  (exists e, In e g /\ e_rank e = best_rank (mkSilver 1 "US" "a2" "B" 2 60 1)) /\
  (forall e, In e g -> best_rank (mkSilver 1 "US" "a2" "B" 2 60 1) <= e_rank e).
Proof.
  split; [vm_compute; left; reflexivity|].
  apply silver_row_aggregates_bounded; vm_compute; left; reflexivity.
Defined.

Lemma gold_output_order_witness :
  (0 < 1)%nat /\
  nth_error (silver_to_gold
    [mkSilver 1 "US" "a1" "A" 1 50 1; mkSilver 1 "GB" "a1" "A" 2 30 3;
     mkSilver 1 "US" "a2" "B" 1 40 2]) 0 = Some (mkGold 1 "a1" "A" 2 80 1) /\
  nth_error (silver_to_gold
    [mkSilver 1 "US" "a1" "A" 1 50 1; mkSilver 1 "GB" "a1" "A" 2 30 3;
     mkSilver 1 "US" "a2" "B" 1 40 2]) 1 = Some (mkGold 1 "a2" "B" 1 40 2) /\
  gold_cmp (mkGold 1 "a1" "A" 2 80 1) (mkGold 1 "a2" "B" 1 40 2) <> Gt.
Proof.
  split; [lia|]; split; [vm_compute; reflexivity|]; split; [vm_compute; reflexivity|].
  apply (gold_output_order
    [mkSilver 1 "US" "a1" "A" 1 50 1; mkSilver 1 "GB" "a1" "A" 2 30 3;
     mkSilver 1 "US" "a2" "B" 1 40 2] 0 1);
    [lia | vm_compute; reflexivity | vm_compute; reflexivity].
Defined.

Lemma gold_row_aggregates_bounded_witness :
  In (mkGold 1 "a1" "A" 2 80 1)
    (silver_to_gold [mkSilver 1 "US" "a1" "A" 1 50 1; mkSilver 1 "GB" "a1" "A" 2 30 3;
                     mkSilver 1 "US" "a2" "B" 1 40 2]) /\
  let m := gold_members
      [mkSilver 1 "US" "a1" "A" 1 50 1; mkSilver 1 "GB" "a1" "A" 2 30 3;
       mkSilver 1 "US" "a2" "B" 1 40 2]
      (gold_row_key (mkGold 1 "a1" "A" 2 80 1)) in
  m <> [] /\
  1 <= markets (mkGold 1 "a1" "A" 2 80 1) <= Z.of_nat (length m) /\
  (exists s, In s m /\ best_rank s = g_best_rank (mkGold 1 "a1" "A" 2 80 1)) /\
  (forall s, In s m -> g_best_rank (mkGold 1 "a1" "A" 2 80 1) <= best_rank s).
Proof.
  split; [vm_compute; left; reflexivity|].
  apply gold_row_aggregates_bounded; vm_compute; left; reflexivity.
Defined.

Lemma gold_best_rank_from_bronze_witness :
  In (mkGold 1 "a2" "B" 2 60 1)
    (silver_to_gold (bronze_to_silver
      [mkBronze 1 "US" "p" "P" 3 "t1" None ["a1"; "a2"] ["A"; "B"] (Some 50);
       mkBronze 1 "GB" "q" "Q" 1 "t2" None ["a2"] ["B"] (Some 10)])) /\
  (exists r, In r [mkBronze 1 "US" "p" "P" 3 "t1" None ["a1"; "a2"] ["A"; "B"] (Some 50);
                   mkBronze 1 "GB" "q" "Q" 1 "t2" None ["a2"] ["B"] (Some 10)] /\
     snapshot_date r = 1 /\ In ("a2", "B") (combine (artist_ids r) (artist_names r)) /\
     rank r = 1).
Proof.
  split; [vm_compute; auto|].
  apply (proj1 (gold_best_rank_from_bronze
    [mkBronze 1 "US" "p" "P" 3 "t1" None ["a1"; "a2"] ["A"; "B"] (Some 50);
     mkBronze 1 "GB" "q" "Q" 1 "t2" None ["a2"] ["B"] (Some 10)]
    (mkGold 1 "a2" "B" 2 60 1) ltac:(vm_compute; auto))).
Defined.

(** * Further properties of the Spotify client *)

Lemma request_loop_429s : forall rl rest c w,
  Forall (fun x => status_code x = 429 /\ 0 <= retry_wait x) rl ->
  request_loop (rl ++ rest) c w =
  request_loop rest c
    (mkWorld (clock w + sum_Z (map retry_wait rl)) (token_script w) (token_posts w)
       (requests_sent w + length rl)).
Proof.
  induction rl as [|x rl IH]; intros rest c [t ts tp rq] Hall; simpl.
  - rewrite Z.add_0_r, Nat.add_0_r; reflexivity.
  - inversion Hall as [|? ? [Hx Hw] Hrl]; subst.
    rewrite Hx; simpl.
    assert (Hneg : Z.ltb (retry_wait x) 0 = false) by (apply Z.ltb_ge; exact Hw).
    unfold retry_wait in Hneg; rewrite Hneg, IH by exact Hrl; simpl.
    unfold retry_wait; f_equal; f_equal; [lia | lia].
Qed.

(** After any number of 429 responses whose [Retry-After] is not negative,
    the first response that is neither 401 nor 429 ends [_request]: it
    raises [HTTPError] for a status in 400..599 and is returned otherwise.
    The client slept [Retry-After] seconds (default 1) per 429, reused its
    valid token (no token request) and sent one request per response up to
    that one; later responses are never requested. A 429 whose
    [Retry-After] is negative instead makes [time.sleep] raise [ValueError]
    right after that request. *)
Theorem request_rate_limited_then_final : forall rl r rest c w,
  Forall (fun x => status_code x = 429 /\ 0 <= retry_wait x) rl ->
  token_valid c (clock w) = true ->
  (status_code r <> 401 -> status_code r <> 429 ->
   _request c w (rl ++ r :: rest) =
   ((if raises_for_status (status_code r) then RaisedHTTPError (status_code r)
     else Returned (resp_body r)),
    c,
    mkWorld (clock w + sum_Z (map retry_wait rl)) (token_script w) (token_posts w)
      (requests_sent w + length rl + 1))) /\
  (status_code r = 429 -> retry_wait r < 0 ->
   _request c w (rl ++ r :: rest) =
   (RaisedValueError, c,
    mkWorld (clock w + sum_Z (map retry_wait rl)) (token_script w) (token_posts w)
      (requests_sent w + length rl + 1))).
Proof.
  intros rl r rest c w Hall Hv.
  unfold _request, _ensure_token; rewrite Hv, request_loop_429s by exact Hall.
  split.
  - intros H401 H429.
    simpl; apply Z.eqb_neq in H401, H429; rewrite H401, H429.
    unfold sent; simpl; rewrite Nat.add_1_r.
    destruct (raises_for_status (status_code r)); reflexivity.
  - intros H429 Hneg; simpl; rewrite H429; cbn.
    assert (Hlt : Z.ltb (retry_wait r) 0 = true) by (apply Z.ltb_lt; exact Hneg).
    unfold retry_wait in Hlt; rewrite Hlt.
    unfold sent; simpl; rewrite Nat.add_1_r; reflexivity.
Qed.

(** A token fetched at time [t] with lifetime [e] ([expires_in], default
    3600) is reused by [_ensure_token] exactly while the clock is below
    [t + e - 30]; from then on, or at once when [e <= 30], a new token is
    requested. *)
Theorem token_refresh_window : forall c w tok ex rest,
  token_valid c (clock w) = false ->
  token_script w = TokenOk tok ex :: rest ->
  tok <> EmptyString ->
  exists c',
    _ensure_token c w =
      TokenReady c' (mkWorld (clock w) rest (S (token_posts w)) (requests_sent w)) /\
    _token c' = Some tok /\
    (forall now, token_valid c' now = true <-> now < clock w + token_lifetime ex - 30).
Proof.
  intros c w tok ex rest Hv Hs Htok.
  unfold _ensure_token; rewrite Hv, Hs.
  eexists; split; [reflexivity|]; split; [reflexivity|].
  intros now; unfold token_valid, truthy; cbn [_token _token_expiry].
  destruct tok as [|ch tok']; [contradiction Htok; reflexivity|].
  unfold token_lifetime; destruct ex; apply Z.ltb_lt.
Qed.

(** When the token refresh after a 401 fails, [_request] raises that
    failure and leaves the client with no token, so its next request starts
    by fetching one. *)
Theorem refresh_failure_clears_token : forall c w r rs st rest,
  token_valid c (clock w) = true ->
  status_code r = 401 ->
  token_script w = TokenFail st :: rest ->
  exists w',
    _request c w (r :: rs) = (RaisedHTTPError st, _invalidate_token c, w') /\
    requests_sent w' = S (requests_sent w) /\
    (forall now, token_valid (_invalidate_token c) now = false).
Proof.
  intros c w r rs st rest Hv H401 Hs.
  unfold _request, _ensure_token at 1; rewrite Hv; simpl.
  rewrite H401; simpl.
  unfold _ensure_token; simpl; rewrite Hs.
  eexists; split; [reflexivity|]; split; [reflexivity|]; reflexivity.
Qed.

Lemma request_rate_limited_then_final_witness :
  Forall (fun x => status_code x = 429 /\ 0 <= retry_wait x)
    [mkResponse 429 (Some 5) "x"; mkResponse 429 None "x"] /\
  token_valid (mkClient (Some "tok") 1000) 0 = true /\
  _request (mkClient (Some "tok") 1000) (mkWorld 0 [] 0 0)
    ([mkResponse 429 (Some 5) "x"; mkResponse 429 None "x"] ++
     [mkResponse 200 None "ok"; mkResponse 500 None "late"])%list =
    (Returned "ok", mkClient (Some "tok") 1000, mkWorld 6 [] 0 3) /\
  _request (mkClient (Some "tok") 1000) (mkWorld 0 [] 0 0)
    ([mkResponse 429 (Some 5) "x"; mkResponse 429 None "x"] ++
     [mkResponse 429 (Some (-1)) "x"; mkResponse 200 None "late"])%list =
    (RaisedValueError, mkClient (Some "tok") 1000, mkWorld 6 [] 0 3).
Proof.
  assert (Hall : Forall (fun x => status_code x = 429 /\ 0 <= retry_wait x)
    [mkResponse 429 (Some 5) "x"; mkResponse 429 None "x"])
    by (repeat constructor; cbv; discriminate).
  assert (Hv : token_valid (mkClient (Some "tok") 1000) 0 = true) by reflexivity.
  split; [exact Hall|]; split; [exact Hv|]; split.
  - rewrite (proj1 (request_rate_limited_then_final
      [mkResponse 429 (Some 5) "x"; mkResponse 429 None "x"] (mkResponse 200 None "ok")
      [mkResponse 500 None "late"] (mkClient (Some "tok") 1000) (mkWorld 0 [] 0 0) Hall Hv));
      [vm_compute; reflexivity | discriminate | discriminate].
  - rewrite (proj2 (request_rate_limited_then_final
      [mkResponse 429 (Some 5) "x"; mkResponse 429 None "x"] (mkResponse 429 (Some (-1)) "x")
      [mkResponse 200 None "late"] (mkClient (Some "tok") 1000) (mkWorld 0 [] 0 0) Hall Hv));
      [vm_compute; reflexivity | reflexivity | reflexivity].
Defined.

Lemma token_refresh_window_witness :
  token_valid (mkClient None 0) 100 = false /\
  token_script (mkWorld 100 [TokenOk "tok" None] 0 0) = [TokenOk "tok" None] /\
  exists c',
    _ensure_token (mkClient None 0) (mkWorld 100 [TokenOk "tok" None] 0 0) =
      TokenReady c' (mkWorld 100 [] 1 0) /\
    _token c' = Some "tok" /\
    (forall now, token_valid c' now = true <-> now < 100 + token_lifetime None - 30).
Proof.
  split; [reflexivity|]; split; [reflexivity|].
  apply (token_refresh_window (mkClient None 0) (mkWorld 100 [TokenOk "tok" None] 0 0)
           "tok" None []); [reflexivity | reflexivity | discriminate].
Defined.

Lemma refresh_failure_clears_token_witness :
  token_valid (mkClient (Some "tok") 1000) 0 = true /\
  exists w',
    _request (mkClient (Some "tok") 1000) (mkWorld 0 [TokenFail 503] 0 0)
      [mkResponse 401 None "x"; mkResponse 200 None "ok"] =
      (RaisedHTTPError 503, _invalidate_token (mkClient (Some "tok") 1000), w') /\
    requests_sent w' = 1%nat /\
    (forall now, token_valid (_invalidate_token (mkClient (Some "tok") 1000)) now = false).
Proof.
  split; [reflexivity|].
  apply (refresh_failure_clears_token (mkClient (Some "tok") 1000)
           (mkWorld 0 [TokenFail 503] 0 0) (mkResponse 401 None "x")
           [mkResponse 200 None "ok"] 503 []); reflexivity.
Defined.

Lemma follow_pages_chain : forall ps last rest u items,
  Forall (fun p => next_url p <> None /\ page_items p <> Null) ps ->
  next_url last = None -> page_items last <> Null ->
  follow_pages (Some u) items (ps ++ last :: rest) =
  PagesOk (items ++ concat (map page_batch (ps ++ [last]))).
Proof.
  induction ps as [|p ps IH]; intros last rest u items Hps Hlast Hitems; simpl.
  - unfold page_batch; destruct (page_items last) as [| |b];
      [| contradiction Hitems; reflexivity |]; rewrite Hlast;
      destruct rest; simpl; rewrite ?app_nil_r; reflexivity.
  - inversion Hps as [|? ? [Hn Hi] Hps']; subst.
    destruct (next_url p) as [u'|] eqn:En; [|contradiction Hn; reflexivity].
    unfold page_batch at 1; destruct (page_items p) as [| |b];
      [| contradiction Hi; reflexivity |];
      rewrite (IH last rest u') by assumption;
      rewrite ?app_assoc, ?app_nil_r; reflexivity.
Qed.

Lemma follow_pages_null : forall ps p rest u items,
  Forall (fun p => next_url p <> None /\ page_items p <> Null) ps ->
  page_items p = Null ->
  follow_pages (Some u) items (ps ++ p :: rest) = PagesTypeError.
Proof.
  induction ps as [|q ps IH]; intros p rest u items Hps Hp; simpl.
  - rewrite Hp; reflexivity.
  - inversion Hps as [|? ? [Hn Hi] Hps']; subst.
    destruct (next_url q) as [u'|] eqn:En; [|contradiction Hn; reflexivity].
    destruct (page_items q); [| contradiction Hi; reflexivity |]; apply IH; assumption.
Qed.

(** [fetch_playlist] follows [next] links while they are non-empty strings:
    on a chain of pages ending with one without a [next], it returns the
    first page's items followed by every page's items in order, and
    requests no page after the last one. *)
Theorem fetch_playlist_concatenates_pages : forall pl ps last rest,
  next_url (first_tracks pl) <> None ->
  Forall (fun p => next_url p <> None /\ page_items p <> Null) ps ->
  next_url last = None -> page_items last <> Null ->
  fetch_playlist pl (ps ++ last :: rest) =
  (pl_name pl,
   PagesOk (first_items (first_tracks pl) ++ concat (map page_batch (ps ++ [last])))).
Proof.
  intros pl ps last rest Hfirst Hps Hlast Hitems; unfold fetch_playlist.
  destruct (next_url (first_tracks pl)) as [u|]; [|contradiction Hfirst; reflexivity].
  rewrite follow_pages_chain by assumption; reflexivity.
Qed.

(** [null] items are treated differently on the first and on later pages:
    on the playlist's own [tracks] object, [null] items are read as [[]]
    ([tracks.get("items", []) or []]), so [fetch_playlist] behaves as with
    an empty list; a later page whose [items] is [null] makes
    [fetch_playlist] raise [TypeError] ([len(None)] in the debug call). *)
Theorem fetch_playlist_null_page_items :
  (forall name nx pages,
     fetch_playlist (mkPlaylist name (Present (mkPage Null nx))) pages =
     fetch_playlist (mkPlaylist name (Present (mkPage (Present []) nx))) pages) /\
  (forall pl ps p rest,
     next_url (first_tracks pl) <> None ->
     Forall (fun p => next_url p <> None /\ page_items p <> Null) ps ->
     page_items p = Null ->
     fetch_playlist pl (ps ++ p :: rest) = (pl_name pl, PagesTypeError)).
Proof.
  split.
  - intros name nx pages; reflexivity.
  - intros pl ps p rest Hfirst Hps Hp; unfold fetch_playlist.
    destruct (next_url (first_tracks pl)) as [u|]; [|contradiction Hfirst; reflexivity].
    rewrite follow_pages_null by assumption; reflexivity.
Qed.

Lemma fetch_playlist_concatenates_pages_witness :
  fetch_playlist (mkPlaylist (Some "Top") (Present (mkPage (Present [None]) (Present "u2"))))
    ([mkPage (Present [None; None]) (Present "u3")] ++
     mkPage Missing Null :: [mkPage Null Missing])%list =
  (Some "Top", PagesOk [None; None; None]).
Proof.
  rewrite (fetch_playlist_concatenates_pages
    (mkPlaylist (Some "Top") (Present (mkPage (Present [None]) (Present "u2"))))
    [mkPage (Present [None; None]) (Present "u3")] (mkPage Missing Null)
    [mkPage Null Missing]);
    [reflexivity | discriminate | repeat constructor; discriminate
    | reflexivity | discriminate].
Defined.

Lemma fetch_playlist_null_page_items_witness :
  fetch_playlist (mkPlaylist (Some "Top") (Present (mkPage Null Missing))) [] =
    (Some "Top", PagesOk []) /\
  fetch_playlist (mkPlaylist (Some "Top") (Present (mkPage Null (Present "u2"))))
    ([mkPage (Present [None]) (Present "u3")] ++ [mkPage Null Missing])%list =
  (Some "Top", PagesTypeError).
Proof.
  split.
  - rewrite (proj1 fetch_playlist_null_page_items (Some "Top") Missing []); reflexivity.
  - apply (proj2 fetch_playlist_null_page_items
      (mkPlaylist (Some "Top") (Present (mkPage Null (Present "u2"))))
      [mkPage (Present [None]) (Present "u3")] (mkPage Null Missing) []);
      [discriminate | repeat constructor; discriminate | reflexivity].
Defined.

(** * Further properties of the orchestrator *)

Lemma try_candidates_calls : forall fetch cands n pid le n1 a,
  try_candidates fetch n pid cands le = (n1, a) ->
  (n1 <= n + length cands)%nat /\ (cands <> [] -> (n < n1)%nat) /\
  (forall le', a = AllFailed le' -> n1 = (n + length cands)%nat).
Proof.
  intros fetch; induction cands as [|m rest IH]; intros n pid le n1 a H; simpl in H.
  - injection H as <- <-; split; [lia|]; split; [intros C; contradiction C; reflexivity|].
    intros; simpl; lia.
  - destruct (fetch n pid m) as [name items|txt|e].
    + injection H as <- <-; simpl; split; [lia|]; split; [lia|discriminate].
    + destruct (IH _ _ _ _ _ H) as (H1 & H2 & H3); simpl; split; [lia|]; split.
      * intros _; destruct rest; [simpl in H; injection H as <- _; lia|].
        specialize (H2 ltac:(discriminate)); lia.
      * intros le' Ha; rewrite (H3 le' Ha); lia.
    + injection H as <- <-; simpl; split; [lia|]; split; [lia|discriminate].
Qed.

Lemma candidate_markets_length : forall t,
  (1 <= length (candidate_markets t) <= 2)%nat.
Proof.
  intros t; unfold candidate_markets.
  destruct (api_market t) as [m|]; [destruct (String.eqb m EmptyString)|]; simpl; lia.
Qed.

Lemma run_targets_totals : forall fetch d ts n fr er n' fr' er',
  run_targets fetch d n ts fr er = TargetsDone n' fr' er' ->
  (n + length ts <= n' <= n + 2 * length ts)%nat /\
  exists new_fr new_er,
    fr' = (fr ++ new_fr)%list /\ er' = (er ++ new_er)%list /\
    (length new_fr + length new_er <= length ts)%nat.
Proof.
  intros fetch d; induction ts as [|t ts IH]; intros n fr er n' fr' er' H; simpl in H.
  - injection H as <- <- <-; split; [simpl; lia|].
    exists [], []; rewrite !app_nil_r; split; [reflexivity|]; split; [reflexivity|].
    simpl; lia.
  - destruct (try_candidates fetch n (t_playlist_id t) (candidate_markets t) None)
      as [n1 a] eqn:Ha.
    destruct (try_candidates_calls _ _ _ _ _ _ _ Ha) as (Hc1 & Hc2 & _).
    pose proof (candidate_markets_length t) as Hlen.
    assert (Hne : candidate_markets t <> []) by (intros E; rewrite E in Hlen; simpl in Hlen; lia).
    specialize (Hc2 Hne).
    destruct a as [name items|le|e]; [| |discriminate].
    + destruct (playlist_to_bronze (dataset_market t) (t_playlist_id t)
                  (match truthy name with Some s => s | None => t_playlist_id t end)
                  d items) as [|r0 rs0].
      * destruct (IH _ _ _ _ _ _ H) as (Hn & nf & ne & -> & -> & Hl).
        split; [simpl; lia|]; exists nf, ne; repeat split; simpl; lia.
      * destruct (IH _ _ _ _ _ _ H) as (Hn & nf & ne & -> & -> & Hl).
        split; [simpl; lia|]; exists ([r0 :: rs0] ++ nf)%list, ne.
        rewrite !app_assoc; repeat split; simpl; lia.
    + destruct (IH _ _ _ _ _ _ H) as (Hn & nf & ne & -> & -> & Hl).
      split; [simpl; lia|]; exists nf, ([failure_message t le] ++ ne)%list.
      rewrite !app_assoc; repeat split; simpl; lia.
Qed.

(** Each target of [run]'s loop makes one or two fetch calls: first with
    the market override or market (no market when that is empty or the
    target is global), and a second one, with no market, only after the
    first raised [HTTPError] with a market. It adds at most one entry, a
    Bronze frame or an error message, after those already collected, or
    aborts the loop. Over a whole list of targets, the calls number between
    one and two per target and the entries at most one per target. *)
Theorem run_targets_accounting : forall fetch d t ts n fr er,
  (forall n1 a,
     try_candidates fetch n (t_playlist_id t) (candidate_markets t) None = (n1, a) ->
     (n1 = S n /\
      a = attempt_of (fetch n (t_playlist_id t) (truthy (api_market t))) /\
      (forall txt, fetch n (t_playlist_id t) (truthy (api_market t)) = FetchHTTPError txt ->
         truthy (api_market t) = None)) \/
     (n1 = S (S n) /\
      exists m txt, truthy (api_market t) = Some m /\
        fetch n (t_playlist_id t) (Some m) = FetchHTTPError txt /\
        a = attempt_of (fetch (S n) (t_playlist_id t) None))) /\
  ((exists e, run_targets fetch d n (t :: ts) fr er = TargetsCrashed e) \/
   exists new_fr new_er, (length new_fr + length new_er <= 1)%nat /\
     run_targets fetch d n (t :: ts) fr er =
       run_targets fetch d (fst (try_candidates fetch n (t_playlist_id t) (candidate_markets t) None))
         ts ((fr ++ new_fr)%list) ((er ++ new_er)%list)) /\
  (forall n' fr' er', run_targets fetch d n (t :: ts) fr er = TargetsDone n' fr' er' ->
     (n + length (t :: ts) <= n' <= n + 2 * length (t :: ts))%nat /\
     exists new_fr new_er,
       fr' = (fr ++ new_fr)%list /\ er' = (er ++ new_er)%list /\
       (length new_fr + length new_er <= length (t :: ts))%nat).
Proof.
  intros fetch d t ts n fr er; split; [|split].
  - intros n1 a H; unfold candidate_markets in H.
    destruct (api_market t) as [m|]; [destruct (String.eqb m EmptyString) eqn:Em|];
      cbn [truthy]; rewrite ?Em; simpl in H.
    + left; destruct (fetch n (t_playlist_id t) None); injection H as <- <-;
        repeat split; reflexivity.
    + destruct (fetch n (t_playlist_id t) (Some m)) as [nm its|txt|e] eqn:F.
      * left; injection H as <- <-; repeat split; intros txt' C; discriminate C.
      * right; destruct (fetch (S n) (t_playlist_id t) None); injection H as <- <-;
          (split; [reflexivity|exists m, txt; repeat split; first [reflexivity | exact F]]).
      * left; injection H as <- <-; repeat split; intros txt' C; discriminate C.
    + left; destruct (fetch n (t_playlist_id t) None); injection H as <- <-;
        repeat split; reflexivity.
  - simpl; destruct (try_candidates fetch n (t_playlist_id t) (candidate_markets t) None)
      as [n1 [name items|le|e]]; simpl.
    + right; destruct (playlist_to_bronze _ _ _ _ _) as [|r0 rs0].
      * exists [], []; rewrite !app_nil_r; split; [simpl; lia|reflexivity].
      * exists [r0 :: rs0], []; rewrite app_nil_r; split; [simpl; lia|reflexivity].
    + right; exists [], [failure_message t le]; rewrite app_nil_r; split; [simpl; lia|reflexivity].
    + left; exists e; reflexivity.
  - intros n' fr' er' H; exact (run_targets_totals fetch d (t :: ts) n fr er n' fr' er' H).
Qed.

Lemma run_targets_accounting_witness :
  let fetch0 := fun (n : nat) (_ : string) (_ : option string) =>
      if Nat.eqb n 0 then FetchHTTPError (Some "nope") else Fetched (Some "Top 50") [] in
  let t0 := mkTarget "us" "p1" None in
  try_candidates fetch0 0 "p1" (candidate_markets t0) None = (2%nat, Got (Some "Top 50") []) /\
  exists m txt, truthy (api_market t0) = Some m /\ fetch0 0%nat "p1" (Some m) = FetchHTTPError txt.
Proof.
  intros fetch0 t0.
  assert (Ht : try_candidates fetch0 0 "p1" (candidate_markets t0) None
               = (2%nat, Got (Some "Top 50") [])) by (subst fetch0 t0; vm_compute; reflexivity).
  split; [exact Ht|].
  destruct (proj1 (run_targets_accounting fetch0 1 t0 [] 0 [] []) _ _ Ht)
    as [(H & _) | (_ & m & txt & H1 & H2 & _)]; [discriminate H|].
  exists m, txt; split; assumption.
Defined.

(** * Further properties of the configuration parsers *)

Lemma all_chars_app : forall p a b,
  all_chars p (a ++ b) = all_chars p a && all_chars p b.
Proof.
  intros p a b; induction a as [|c a IH]; simpl; [reflexivity|].
  rewrite IH, andb_assoc; reflexivity.
Qed.

Lemma all_chars_impl : forall (p q : Ascii.ascii -> bool) s,
  (forall c, p c = true -> q c = true) -> all_chars p s = true -> all_chars q s = true.
Proof.
  intros p q s Hpq; induction s as [|c s IH]; simpl; [reflexivity|].
  intros H; apply andb_true_iff in H as [H1 H2]; rewrite (Hpq c H1), (IH H2); reflexivity.
Qed.

Lemma append_empty_r : forall s, (s ++ EmptyString)%string = s.
Proof. induction s as [|c s IH]; simpl; [reflexivity|rewrite IH; reflexivity]. Qed.

Lemma append_assoc_str : forall a b c, ((a ++ b) ++ c)%string = (a ++ (b ++ c))%string.
Proof. induction a as [|x a IH]; intros b c; simpl; [reflexivity|rewrite IH; reflexivity]. Qed.

Lemma substring_full : forall s, substring 0 (String.length s) s = s.
Proof. induction s as [|c s IH]; simpl; [reflexivity|rewrite IH; reflexivity]. Qed.

Lemma alnum_not_space : forall c, is_alnum c = true -> negb (is_space c) = true.
Proof. intros [[] [] [] [] [] [] [] []]; vm_compute; congruence. Qed.

Lemma alnum_not : forall c d, is_alnum d = false -> is_alnum c = true ->
  negb (Ascii.eqb c d) = true.
Proof.
  intros c d Hd Hc; destruct (Ascii.eqb_spec c d) as [->|]; [congruence|reflexivity].
Qed.

Lemma alnum_char_free : forall d s, is_alnum d = false ->
  all_chars is_alnum s = true -> char_free d s = true.
Proof. intros d s Hd; apply all_chars_impl; intros c; apply alnum_not; exact Hd. Qed.

Lemma lstrip_by_id : forall p s,
  all_chars (fun c => negb (p c)) s = true -> lstrip_by p s = s.
Proof.
  intros p [|c s] H; simpl in *; [reflexivity|].
  apply andb_true_iff in H as [H _]; destruct (p c); [discriminate|reflexivity].
Qed.

Lemma rstrip_by_id : forall p s,
  all_chars (fun c => negb (p c)) s = true -> rstrip_by p s = s.
Proof.
  intros p; induction s as [|c s IH]; simpl; intros H; [reflexivity|].
  apply andb_true_iff in H as [Hc Hs]; rewrite (IH Hs).
  destruct s; [destruct (p c); [discriminate|reflexivity]|reflexivity].
Qed.

Lemma strip_by_id : forall p s,
  all_chars (fun c => negb (p c)) s = true -> strip_by p s = s.
Proof.
  intros p s H; unfold strip_by; rewrite lstrip_by_id by exact H; apply rstrip_by_id, H.
Qed.

Lemma rstrip_by_app : forall p a b, rstrip_by p b <> EmptyString ->
  rstrip_by p (a ++ b) = (a ++ rstrip_by p b)%string.
Proof.
  intros p a b Hb; induction a as [|c a IH]; simpl; [reflexivity|].
  rewrite IH; destruct a; simpl; [destruct (rstrip_by p b); [contradiction Hb|]; reflexivity|].
  reflexivity.
Qed.

Lemma alnum_strip : forall s, all_chars is_alnum s = true -> strip s = s.
Proof.
  intros s H; apply strip_by_id; revert H; apply all_chars_impl, alnum_not_space.
Qed.

Lemma split_char_free : forall c a, char_free c a = true -> split_char c a = [a].
Proof.
  intros c; induction a as [|d a IH]; simpl; intros H; [reflexivity|].
  apply andb_true_iff in H as [Hd Ha]; apply negb_true_iff in Hd; rewrite Hd, (IH Ha).
  reflexivity.
Qed.

Lemma split_char_app : forall c a b, char_free c a = true ->
  split_char c (a ++ String c b) = a :: split_char c b.
Proof.
  intros c; induction a as [|d a IH]; simpl; intros b H.
  - rewrite Ascii.eqb_refl; reflexivity.
  - apply andb_true_iff in H as [Hd Ha]; apply negb_true_iff in Hd; rewrite Hd, (IH b Ha).
    reflexivity.
Qed.

Lemma split_once_char_none : forall c s, char_free c s = true ->
  split_once (String c EmptyString) s = None.
Proof.
  intros c; induction s as [|d s IH]; simpl; intros H; [reflexivity|].
  apply andb_true_iff in H as [Hd Hs]; apply negb_true_iff in Hd.
  destruct (Ascii.ascii_dec c d) as [<-|Hne]; [rewrite Ascii.eqb_refl in Hd; discriminate|].
  rewrite (IH Hs); reflexivity.
Qed.

Lemma split_once_char_app : forall c a b, char_free c a = true ->
  split_once (String c EmptyString) (a ++ String c b) = Some (a, b).
Proof.
  intros c; induction a as [|d a IH]; intros b H; simpl.
  - destruct (Ascii.ascii_dec c c) as [_|C]; [|contradiction C; reflexivity].
    rewrite Nat.sub_0_r, substring_full.
    assert (Hp : String.prefix EmptyString b = true) by (destruct b; reflexivity).
    rewrite Hp; reflexivity.
  - simpl in H; apply andb_true_iff in H as [Hd Ha]; apply negb_true_iff in Hd.
    destruct (Ascii.ascii_dec c d) as [<-|Hne]; [rewrite Ascii.eqb_refl in Hd; discriminate|].
    rewrite (IH b Ha); reflexivity.
Qed.

Lemma prefix_app_inv : forall p s, String.prefix p s = true ->
  exists r, s = (p ++ r)%string.
Proof.
  induction p as [|c p IH]; intros s H; [exists s; reflexivity|].
  destruct s as [|d s]; simpl in H; [discriminate|].
  destruct (Ascii.ascii_dec c d) as [<-|]; [|discriminate].
  destruct (IH s H) as [r ->]; exists r; reflexivity.
Qed.

Lemma split_once_cons : forall sep c s,
  split_once sep (String c s) =
  if String.prefix sep (String c s)
  then Some (EmptyString, substring (String.length sep)
                            (String.length (String c s) - String.length sep)%nat (String c s))
  else match split_once sep s with
       | Some (a, b) => Some (String c a, b)
       | None => None
       end.
Proof. reflexivity. Qed.

Lemma split_once_found : forall sep s a b, split_once sep s = Some (a, b) ->
  exists r, s = (a ++ r)%string /\ String.prefix sep r = true.
Proof.
  intros sep; induction s as [|c s IH]; intros a b H.
  - simpl in H; destruct sep; simpl in H; [injection H as <- _; exists EmptyString; split; reflexivity|].
    discriminate.
  - rewrite split_once_cons in H; destruct (String.prefix sep (String c s)) eqn:Ep.
    + injection H as <- _; exists (String c s); split; [reflexivity|exact Ep].
    + destruct (split_once sep s) as [[a' b']|]; [|discriminate].
      injection H as <- _; destruct (IH a' b' eq_refl) as (r & -> & Hr).
      exists r; split; [reflexivity|exact Hr].
Qed.

Lemma alnum_no_substring : forall sep s,
  all_chars is_alnum sep = false -> all_chars is_alnum s = true ->
  contains sep s = false.
Proof.
  intros sep s Hsep Hs; unfold contains.
  destruct (split_once sep s) as [[a b]|] eqn:E; [|reflexivity].
  destruct (split_once_found _ _ _ _ E) as (r & -> & Hp).
  destruct (prefix_app_inv _ _ Hp) as [r' ->].
  rewrite !all_chars_app, Hsep in Hs; destruct (all_chars is_alnum a); discriminate.
Qed.

Lemma alnum_not_prefix : forall p s,
  all_chars is_alnum p = false -> all_chars is_alnum s = true ->
  String.prefix p s = false.
Proof.
  intros p s Hp Hs; destruct (String.prefix p s) eqn:E; [|reflexivity].
  destruct (prefix_app_inv _ _ E) as [r ->]; rewrite all_chars_app, Hp in Hs; discriminate.
Qed.

Lemma normalise_plain_id : forall s, all_chars is_alnum s = true ->
  _normalise_playlist_id s = s.
Proof.
  intros s Hs; unfold _normalise_playlist_id; rewrite (alnum_strip s Hs).
  rewrite alnum_not_prefix by (reflexivity || exact Hs).
  rewrite alnum_no_substring by (reflexivity || exact Hs); reflexivity.
Qed.

Lemma id_like_nonempty : forall s, id_like s = true -> s <> EmptyString.
Proof. intros [|c s] H; [discriminate|discriminate]. Qed.

Lemma id_like_alnum : forall s, id_like s = true -> all_chars is_alnum s = true.
Proof. intros s H; apply andb_true_iff in H as [_ H]; exact H. Qed.

Lemma split_entry_wf : forall t, well_formed_target t = true ->
  _split_playlist_entry
    (t_playlist_id t ++
     match api_market_override t with Some o => "@" ++ o | None => EmptyString end)%string
  = ParseOk (t_playlist_id t, api_market_override t).
Proof.
  intros [m pid [o|]] H; unfold well_formed_target in H; cbn [t_market t_playlist_id
    api_market_override] in *; apply andb_true_iff in H as [H Ho];
    apply andb_true_iff in H as [Hm Hp]; unfold _split_playlist_entry.
  - change ("@" ++ o)%string with (String "@" o).
    rewrite split_once_char_app by (apply alnum_char_free; [reflexivity|apply id_like_alnum, Hp]).
    rewrite (alnum_strip pid (id_like_alnum _ Hp)), (alnum_strip o (id_like_alnum _ Ho)).
    destruct (String.eqb_spec pid EmptyString) as [E|_];
      [contradiction (id_like_nonempty _ Hp)|].
    destruct (String.eqb_spec o EmptyString) as [E|_];
      [contradiction (id_like_nonempty _ Ho)|].
    reflexivity.
  - rewrite append_empty_r, split_once_char_none
      by (apply alnum_char_free; [reflexivity|apply id_like_alnum, Hp]).
    reflexivity.
Qed.

Lemma entry_string_nonspace : forall t, well_formed_target t = true ->
  all_chars (fun c => negb (is_space c)) (entry_string t) = true.
Proof.
  intros [m pid o] H; unfold well_formed_target, entry_string in *;
    cbn [t_market t_playlist_id api_market_override] in *.
  apply andb_true_iff in H as [H Ho]; apply andb_true_iff in H as [Hm Hp].
  assert (Hns : forall s, id_like s = true -> all_chars (fun c => negb (is_space c)) s = true).
  { intros s Hs; apply (all_chars_impl is_alnum); [exact alnum_not_space|apply id_like_alnum, Hs]. }
  rewrite all_chars_app; simpl; rewrite (Hns m Hm), all_chars_app, (Hns pid Hp); simpl.
  destruct o as [o|]; simpl; [rewrite (Hns o Ho)|]; reflexivity.
Qed.

Lemma entry_string_char_free : forall d t, well_formed_target t = true ->
  is_alnum d = false -> Ascii.eqb d ":" = false -> Ascii.eqb d "@" = false ->
  char_free d (entry_string t) = true.
Proof.
  intros d [m pid o] H Hd H1 H2; unfold well_formed_target, entry_string in *;
    cbn [t_market t_playlist_id api_market_override] in *.
  apply andb_true_iff in H as [H Ho]; apply andb_true_iff in H as [Hm Hp].
  pose proof (alnum_char_free d m Hd (id_like_alnum _ Hm)) as Fm.
  pose proof (alnum_char_free d pid Hd (id_like_alnum _ Hp)) as Fp.
  assert (E1 : Ascii.eqb ":" d = false) by (rewrite Ascii.eqb_sym; exact H1).
  assert (E2 : Ascii.eqb "@" d = false) by (rewrite Ascii.eqb_sym; exact H2).
  unfold char_free in *.
  rewrite all_chars_app; cbn [all_chars String.append negb];
    rewrite Fm, E1, all_chars_app, Fp; cbn [andb negb].
  destruct o as [o|]; cbn [all_chars String.append]; [|reflexivity].
  pose proof (alnum_char_free d o Hd (id_like_alnum _ Ho)) as Fo; unfold char_free in Fo.
  rewrite E2, Fo; reflexivity.
Qed.

Lemma parse_parts_wf : forall ts, forallb well_formed_target ts = true ->
  parse_parts (map entry_string ts) =
  ParseOk (map (fun t => mkTarget (lower (t_market t)) (t_playlist_id t)
                                  (api_market_override t)) ts).
Proof.
  induction ts as [|t ts IH]; simpl; intros H; [reflexivity|].
  apply andb_true_iff in H as [Ht Hts].
  pose proof Ht as Hwf; destruct t as [m pid o]; unfold well_formed_target in Ht;
    cbn [t_market t_playlist_id api_market_override] in *.
  apply andb_true_iff in Ht as [Ht Ho]; apply andb_true_iff in Ht as [Hm Hp].
  assert (Hent : entry_string (mkTarget m pid o) =
    (m ++ String ":" (pid ++ match o with Some o => "@" ++ o | None => EmptyString end))%string)
    by reflexivity.
  rewrite Hent.
  rewrite split_once_char_app by (apply alnum_char_free; [reflexivity|apply id_like_alnum, Hm]).
  rewrite (alnum_strip m (id_like_alnum _ Hm)).
  assert (He : all_chars (fun c => negb (is_space c))
     (pid ++ match o with Some o => "@" ++ o | None => EmptyString end)%string = true).
  { pose proof (entry_string_nonspace _ Hwf) as Hn; unfold entry_string in Hn;
      cbn [t_market t_playlist_id api_market_override] in Hn.
    rewrite all_chars_app in Hn; apply andb_true_iff in Hn as [_ Hn]; exact Hn. }
  assert (Hse : strip (pid ++ match o with Some o => "@" ++ o | None => EmptyString end)%string
                = (pid ++ match o with Some o => "@" ++ o | None => EmptyString end)%string)
    by exact (strip_by_id _ _ He).
  rewrite !Hse.
  destruct (String.eqb_spec m EmptyString) as [E|_]; [contradiction (id_like_nonempty _ Hm)|].
  destruct (String.eqb_spec (pid ++ match o with Some o => "@" ++ o | None => EmptyString end)%string
              EmptyString) as [E|_].
  { destruct pid; [exfalso; exact (id_like_nonempty _ Hp eq_refl) | discriminate]. }
  pose proof (split_entry_wf _ Hwf) as Hs; cbn [t_playlist_id api_market_override] in Hs.
  simpl orb; rewrite Hs.
  rewrite (IH Hts), (normalise_plain_id pid (id_like_alnum _ Hp)); reflexivity.
Qed.

Lemma split_commas_join : forall l, l <> [] ->
  Forall (fun s => char_free "," s = true) l ->
  split_char "," (String.concat "," l) = l.
Proof.
  induction l as [|x [|y l] IH]; intros Hne Hall; [contradiction Hne; reflexivity| |].
  - inversion Hall; subst; simpl; apply split_char_free; assumption.
  - inversion Hall as [|? ? Hx Hrest]; subst.
    change (String.concat "," (x :: y :: l)) with (x ++ String "," (String.concat "," (y :: l)))%string.
    rewrite split_char_app by exact Hx; rewrite IH; [reflexivity|discriminate|exact Hrest].
Qed.

(** [_parse_playlists] reads back what it is meant to parse: joining
    well-formed entries [MARKET:PLAYLIST_ID] or [MARKET:PLAYLIST_ID@API_MARKET]
    (letters and digits only) with commas gives the targets in the same
    order, with the market lower-cased and the id and override kept. *)
Theorem parse_playlists_round_trip : forall ts,
  ts <> [] -> forallb well_formed_target ts = true ->
  _parse_playlists (Some (String.concat "," (map entry_string ts))) =
  ParseOk (map (fun t => mkTarget (lower (t_market t)) (t_playlist_id t)
                                  (api_market_override t)) ts).
Proof.
  intros ts Hne Hwf.
  assert (Hfree : Forall (fun s => char_free "," s = true) (map entry_string ts)).
  { apply Forall_map, Forall_forall; intros t Ht.
    apply entry_string_char_free; [|reflexivity|reflexivity|reflexivity].
    rewrite forallb_forall in Hwf; apply Hwf, Ht. }
  assert (Hmne : map entry_string ts <> []) by (destruct ts; [contradiction Hne; reflexivity | discriminate]).
  assert (Hparts : filter (fun p => negb (String.eqb p EmptyString))
                     (map strip (split_char "," (String.concat "," (map entry_string ts))))
                   = map entry_string ts).
  { rewrite split_commas_join by assumption.
    clear Hne Hfree Hmne; induction ts as [|t ts IH]; [reflexivity|].
    simpl in Hwf |- *; apply andb_true_iff in Hwf as [Ht Hts].
    change (strip (entry_string t)) with (strip_by is_space (entry_string t)).
    rewrite (strip_by_id _ _ (entry_string_nonspace _ Ht)).
    destruct (String.eqb_spec (entry_string t) EmptyString) as [E|_].
    { unfold entry_string in E; destruct (t_market t) eqn:Em; [|discriminate].
      unfold well_formed_target in Ht; rewrite Em in Ht; discriminate. }
    simpl; rewrite (IH Hts); reflexivity. }
  unfold _parse_playlists.
  destruct (truthy (Some (String.concat "," (map entry_string ts)))) as [raw|] eqn:Er.
  - unfold truthy in Er.
    destruct (String.eqb _ EmptyString); [discriminate|injection Er as <-].
    rewrite Hparts, (parse_parts_wf _ Hwf).
    destruct ts; [contradiction Hne; reflexivity|reflexivity].
  - exfalso; unfold truthy in Er.
    destruct (String.eqb_spec (String.concat "," (map entry_string ts)) EmptyString) as [E|];
      [|discriminate].
    destruct ts as [|t ts]; [contradiction Hne; reflexivity|].
    simpl in Hwf; apply andb_true_iff in Hwf as [Ht _].
    unfold well_formed_target in Ht; destruct (t_market t) eqn:Em; [discriminate|].
    destruct ts; simpl in E; unfold entry_string in E; rewrite Em in E; discriminate.
Qed.

Lemma rstrip_by_cons_keep : forall p c q, p c = false ->
  rstrip_by p (String c q) = String c (rstrip_by p q).
Proof.
  intros p c q Hc; simpl; destruct (rstrip_by p q); [rewrite Hc|]; reflexivity.
Qed.

Lemma alnum_nonspace : forall s, all_chars is_alnum s = true ->
  all_chars (fun c => negb (is_space c)) s = true.
Proof. intros s; apply all_chars_impl, alnum_not_space. Qed.

Lemma prefix_empty : forall s, String.prefix EmptyString s = true.
Proof. intros [|c s]; reflexivity. Qed.

Lemma normalise_url_tail : forall id rest,
  all_chars is_alnum id = true ->
  (rest = EmptyString \/ exists q, rest = String "?" q) ->
  let segment := after "playlist/" ("https://open.spotify.com/playlist/" ++ id ++ rest) in
  let segment := before "?" segment in
  let segment := before "&" segment in
  strip (strip_by (fun c => Ascii.eqb c "/") segment) = id.
Proof.
  intros id rest Hid Hrest; cbv zeta.
  assert (Ha : after "playlist/" ("https://open.spotify.com/playlist/" ++ id ++ rest)
               = (id ++ rest)%string).
  { unfold after; simpl; rewrite prefix_empty; simpl.
    rewrite Nat.sub_0_r, substring_full; reflexivity. }
  rewrite Ha.
  assert (Hb : before "?" (id ++ rest) = id).
  { unfold before; destruct Hrest as [->|[q ->]].
    - rewrite append_empty_r, split_once_char_none
        by exact (alnum_char_free "?" id eq_refl Hid); reflexivity.
    - rewrite split_once_char_app by exact (alnum_char_free "?" id eq_refl Hid); reflexivity. }
  rewrite Hb; unfold before.
  rewrite split_once_char_none by exact (alnum_char_free "&" id eq_refl Hid).
  rewrite (strip_by_id _ id (alnum_char_free "/" id eq_refl Hid)).
  apply alnum_strip, Hid.
Qed.

(** [_normalise_playlist_id] extracts the id from a Spotify URI
    [spotify:playlist:ID], from a playlist URL
    [https://open.spotify.com/playlist/ID], and from such a URL followed by
    a query string [?...] (whatever the query holds), and leaves a plain
    id unchanged. *)
Theorem normalise_playlist_links : forall id q,
  id_like id = true ->
  _normalise_playlist_id id = id /\
  _normalise_playlist_id ("spotify:playlist:" ++ id) = id /\
  _normalise_playlist_id ("https://open.spotify.com/playlist/" ++ id) = id /\
  _normalise_playlist_id ("https://open.spotify.com/playlist/" ++ id ++ "?" ++ q) = id.
Proof.
  intros id q Hl; pose proof (id_like_alnum _ Hl) as Hid.
  split; [apply normalise_plain_id, Hid|]; split; [|split].
  - unfold _normalise_playlist_id; cbv zeta.
    assert (Hs : strip ("spotify:playlist:" ++ id) = ("spotify:playlist:" ++ id)%string).
    { apply strip_by_id; rewrite all_chars_app, (alnum_nonspace _ Hid); reflexivity. }
    rewrite Hs.
    assert (Hp : String.prefix "spotify:" ("spotify:playlist:" ++ id) = true) by reflexivity.
    assert (Hsplit : split_char ":" ("spotify:playlist:" ++ id) =
                     "spotify" :: "playlist" :: split_char ":" id) by reflexivity.
    rewrite Hp, Hsplit, split_char_free by exact (alnum_char_free ":" id eq_refl Hid).
    apply alnum_strip, Hid.
  - unfold _normalise_playlist_id; cbv zeta.
    assert (Hs : strip ("https://open.spotify.com/playlist/" ++ id)
                 = ("https://open.spotify.com/playlist/" ++ id)%string).
    { apply strip_by_id; rewrite all_chars_app, (alnum_nonspace _ Hid); reflexivity. }
    rewrite Hs.
    assert (Hp : String.prefix "spotify:" ("https://open.spotify.com/playlist/" ++ id) = false)
      by reflexivity.
    assert (Hc : contains "open.spotify.com" ("https://open.spotify.com/playlist/" ++ id) = true)
      by reflexivity.
    rewrite Hp, Hc.
    pose proof (normalise_url_tail id EmptyString Hid (or_introl eq_refl)) as Ht.
    cbv zeta in Ht; rewrite append_empty_r in Ht; exact Ht.
  - unfold _normalise_playlist_id; cbv zeta.
    assert (Hs : strip ("https://open.spotify.com/playlist/" ++ id ++ "?" ++ q)
                 = ("https://open.spotify.com/playlist/" ++ id ++
                    String "?" (rstrip_by is_space q))%string).
    { unfold strip, strip_by.
      assert (Hl0 : lstrip_by is_space ("https://open.spotify.com/playlist/" ++ id ++ "?" ++ q)
                    = ("https://open.spotify.com/playlist/" ++ id ++ "?" ++ q)%string)
        by reflexivity.
      rewrite Hl0, <- append_assoc_str.
      change ("?" ++ q)%string with (String "?" q).
      rewrite rstrip_by_app by (rewrite rstrip_by_cons_keep by reflexivity; discriminate).
      rewrite rstrip_by_cons_keep by reflexivity; apply append_assoc_str. }
    rewrite Hs.
    assert (Hp : String.prefix "spotify:" ("https://open.spotify.com/playlist/" ++ id ++
                    String "?" (rstrip_by is_space q)) = false) by reflexivity.
    assert (Hc : contains "open.spotify.com" ("https://open.spotify.com/playlist/" ++ id ++
                    String "?" (rstrip_by is_space q)) = true) by reflexivity.
    rewrite Hp, Hc.
    exact (normalise_url_tail id (String "?" (rstrip_by is_space q)) Hid
             (or_intror (ex_intro _ _ eq_refl))).
Qed.

Lemma parse_parts_raises : forall parts x,
  In x parts -> contains ":" x = false ->
  exists msg, parse_parts parts = ParseRaised msg.
Proof.
  induction parts as [|p parts IH]; intros x Hin Hx; [destruct Hin|].
  destruct Hin as [->|Hin].
  - unfold contains in Hx; simpl parse_parts.
    destruct (split_once ":" x) as [[a b]|]; [discriminate|]; eexists; reflexivity.
  - destruct (IH x Hin Hx) as [msg Hmsg]; simpl parse_parts.
    destruct (split_once ":" p) as [[m e]|]; [|eexists; reflexivity].
    destruct (String.eqb (strip m) EmptyString || String.eqb (strip e) EmptyString);
      [eexists; reflexivity|].
    destruct (_split_playlist_entry (strip e)) as [[pv ov]|msg']; [|eexists; reflexivity].
    rewrite Hmsg; eexists; reflexivity.
Qed.

(** [_parse_playlists] falls back to its default target only when the
    variable is unset or empty; a non-empty value made only of commas and
    whitespace raises [RuntimeError] (no playlist entries), and so does a
    value with any non-blank entry lacking [:]: no malformed entry is
    skipped. *)
Theorem parse_playlists_rejects : forall raw,
  _parse_playlists None = ParseOk [default_target] /\
  _parse_playlists (Some EmptyString) = ParseOk [default_target] /\
  (raw <> EmptyString ->
   Forall (fun p => strip p = EmptyString) (split_char "," raw) ->
   _parse_playlists (Some raw) =
   ParseRaised "SPOTIFY_PLAYLIST_IDS did not contain any playlist entries.") /\
  (forall part, In part (split_char "," raw) -> strip part <> EmptyString ->
   contains ":" (strip part) = false ->
   exists msg, _parse_playlists (Some raw) = ParseRaised msg).
Proof.
  intros raw; split; [reflexivity|]; split; [reflexivity|].
  assert (Htr : raw <> EmptyString -> truthy (Some raw) = Some raw).
  { intros Hne; unfold truthy; destruct (String.eqb_spec raw EmptyString);
      [contradiction|reflexivity]. }
  split.
  - intros Hne Hall; unfold _parse_playlists; rewrite (Htr Hne).
    assert (Hf : filter (fun p => negb (String.eqb p EmptyString))
                   (map strip (split_char "," raw)) = []).
    { induction (split_char "," raw) as [|p ps IH]; [reflexivity|].
      inversion Hall as [|? ? Hp Hps]; subst; simpl; rewrite Hp; simpl; apply IH, Hps. }
    rewrite Hf; reflexivity.
  - intros part Hin Hs Hc.
    assert (Hne : raw <> EmptyString).
    { intros ->; simpl in Hin; destruct Hin as [<-|[]]; apply Hs; reflexivity. }
    unfold _parse_playlists; rewrite (Htr Hne).
    destruct (parse_parts_raises
      (filter (fun p => negb (String.eqb p EmptyString)) (map strip (split_char "," raw)))
      (strip part)) as [msg Hmsg].
    + apply filter_In; split; [apply in_map, Hin|].
      destruct (String.eqb_spec (strip part) EmptyString); [contradiction|reflexivity].
    + exact Hc.
    + rewrite Hmsg; exists msg; reflexivity.
Qed.

Lemma parse_playlists_round_trip_witness :
  [mkTarget "US" "abc123" (Some "gb"); mkTarget "global" "XYZ" None] <> [] /\
  forallb well_formed_target
    [mkTarget "US" "abc123" (Some "gb"); mkTarget "global" "XYZ" None] = true /\
  _parse_playlists (Some "US:abc123@gb,global:XYZ") =
  ParseOk [mkTarget "us" "abc123" (Some "gb"); mkTarget "global" "XYZ" None].
Proof.
  split; [discriminate|]; split; [reflexivity|].
  exact (parse_playlists_round_trip
    [mkTarget "US" "abc123" (Some "gb"); mkTarget "global" "XYZ" None]
    ltac:(discriminate) eq_refl).
Defined.

Lemma normalise_playlist_links_witness :
  id_like "37i9dQZF1DXcBWIGoYBM5M" = true /\
  _normalise_playlist_id
    ("https://open.spotify.com/playlist/" ++ "37i9dQZF1DXcBWIGoYBM5M" ++ "?" ++ "si=1a2b")
  = "37i9dQZF1DXcBWIGoYBM5M".
Proof.
  split; [reflexivity|].
  exact (proj2 (proj2 (proj2 (normalise_playlist_links "37i9dQZF1DXcBWIGoYBM5M" "si=1a2b"
    eq_refl)))).
Defined.

Lemma parse_playlists_rejects_witness :
  In " US " (split_char "," "us:p1, US ") /\
  strip " US " <> EmptyString /\ contains ":" (strip " US ") = false /\
  exists msg, _parse_playlists (Some "us:p1, US ") = ParseRaised msg.
Proof.
  split; [vm_compute; auto|]; split; [vm_compute; discriminate|]; split; [reflexivity|].
  apply (proj2 (proj2 (proj2 (parse_playlists_rejects "us:p1, US "))) " US ").
  - vm_compute; auto.
  - vm_compute; discriminate.
  - reflexivity.
Defined.

(** * Further properties of the database load *)

Section FreshKeys.
Context {A K : Type} (key : A -> K) (dec : forall x y : K, {x = y} + {x <> y}).

Lemma existsb_key : forall r l,
  existsb (fun e => if dec (key r) (key e) then true else false) l = true <->
  In (key r) (map key l).
Proof.
  intros r l; rewrite existsb_exists, in_map_iff; split.
  - intros (e & He & Hd); exists e; destruct (dec (key r) (key e)); [auto|discriminate].
  - intros (e & He & Hin); exists e; split; [exact Hin|].
    destruct (dec (key r) (key e)); [reflexivity|congruence].
Qed.

Lemma fresh_keys_spec : forall new existing,
  fresh_keys key dec existing new = true <->
  NoDup (map key new) /\ (forall r, In r new -> ~ In (key r) (map key existing)).
Proof.
  induction new as [|r rest IH]; intros existing; simpl.
  - split; [intros _; split; [constructor|intros _ []]|reflexivity].
  - rewrite andb_true_iff, negb_true_iff, IH.
    split.
    + intros (Hr & Hnd & Hrest); split.
      * constructor; [|exact Hnd].
        intros Hin; apply in_map_iff in Hin as (r' & Hk & Hr').
        apply (Hrest r' Hr'); rewrite map_app, in_app_iff; right; left; symmetry; exact Hk.
      * intros r' [<-|Hr'].
        -- intros Hin; apply existsb_key in Hin; congruence.
        -- intros Hin; apply (Hrest r' Hr'); rewrite map_app, in_app_iff; left; exact Hin.
    + intros (Hnd & Hall); inversion Hnd as [|? ? Hnot Hnd']; subst; split; [|split].
      * destruct (existsb _ existing) eqn:E; [|reflexivity].
        apply existsb_key in E; exfalso; exact (Hall r (or_introl eq_refl) E).
      * exact Hnd'.
      * intros r' Hr' Hin; rewrite map_app, in_app_iff in Hin; destruct Hin as [Hin|[Hk|[]]].
        -- exact (Hall r' (or_intror Hr') Hin).
        -- apply Hnot; rewrite Hk; apply in_map; exact Hr'.
Qed.

Variables (date : A -> Z) (kdate : K -> Z).
Hypothesis key_date : forall a, kdate (key a) = date a.

Lemma append_after_delete : forall d table new,
  Forall (fun r => date r = d) new -> NoDup (map key new) ->
  append_rows key dec (filter (fun e => negb (Z.eqb (date e) d)) table) new =
  Some (filter (fun e => negb (Z.eqb (date e) d)) table ++ new)%list.
Proof.
  intros d table new Hd Hnd; unfold append_rows.
  replace (fresh_keys key dec _ new) with true; [reflexivity|symmetry].
  apply fresh_keys_spec; split; [exact Hnd|].
  intros r Hr Hin; apply in_map_iff in Hin as (e & Hk & He).
  apply filter_In in He as [_ He].
  rewrite Forall_forall in Hd; specialize (Hd r Hr).
  assert (Hde : date e = d) by (rewrite <- key_date, Hk, key_date; exact Hd).
  rewrite Hde, Z.eqb_refl in He; discriminate.
Qed.

Lemma append_dup_fails : forall table new,
  ~ NoDup (map key new) -> append_rows key dec table new = None.
Proof.
  intros table new Hnd; unfold append_rows.
  destruct (fresh_keys key dec table new) eqn:E; [|reflexivity].
  apply fresh_keys_spec in E as [E _]; contradiction.
Qed.

Lemma filter_snapshot_app : forall d table new,
  Forall (fun r => date r = d) new ->
  filter (fun e => negb (Z.eqb (date e) d)) (filter (fun e => negb (Z.eqb (date e) d)) table ++ new)%list =
  filter (fun e => negb (Z.eqb (date e) d)) table.
Proof.
  intros d table new Hd; rewrite filter_app.
  assert (Hidem : forall (f : A -> bool) l, filter f (filter f l) = filter f l).
  { intros f; induction l as [|x l IHl]; [reflexivity|]; simpl.
    destruct (f x) eqn:E; simpl; [rewrite E, IHl|]; [reflexivity|exact IHl]. }
  rewrite Hidem.
  replace (filter _ new) with (@nil A); [apply app_nil_r|].
  induction new as [|r rest IH]; [reflexivity|].
  inversion Hd as [|? ? Hr Hrest]; subst; simpl; rewrite Z.eqb_refl; simpl; apply IH, Hrest.
Qed.
End FreshKeys.

Lemma resolve_snapshot : forall d b s g snap,
  (snap = Some d \/ (snap = None /\ (b <> [] \/ s <> [] \/ g <> []))) ->
  Forall (fun r => snapshot_date r = d) b ->
  Forall (fun x => s_snapshot_date x = d) s ->
  Forall (fun x => g_snapshot_date x = d) g ->
  match snap with Some d0 => Some d0 | None => first_snapshot b s g end = Some d.
Proof.
  intros d b s g snap [->|[-> Hne]] Hb Hs Hg; [reflexivity|].
  destruct b as [|r b]; [|inversion Hb; subst; reflexivity].
  destruct s as [|x s]; [|inversion Hs; subst; reflexivity].
  destruct g as [|y g]; [|inversion Hg; subst; reflexivity].
  destruct Hne as [H|[H|H]]; contradiction H; reflexivity.
Qed.

Lemma load_dataframes_success : forall d b s g snap db,
  match snap with Some d0 => Some d0 | None => first_snapshot b s g end = Some d ->
  Forall (fun r => snapshot_date r = d) b ->
  Forall (fun x => s_snapshot_date x = d) s ->
  Forall (fun x => g_snapshot_date x = d) g ->
  NoDup (map bronze_pk b) -> NoDup (map silver_pk s) -> NoDup (map gold_pk g) ->
  load_dataframes b s g snap db =
  Loaded (inserted_counts b s g) (replaced_snapshot d b s g db).
Proof.
  intros d b s g snap db Hres Hb Hs Hg Hnb Hns Hng.
  unfold load_dataframes; rewrite Hres; cbn zeta iota beta.
  unfold _delete_snapshot, replaced_snapshot, inserted_counts.
  destruct b as [|rb b']; cbn beta iota zeta; cbn [bronze_table silver_table gold_table];
    [|rewrite (append_after_delete bronze_pk bronze_pk_eq_dec snapshot_date fst
                 (fun _ => eq_refl) d _ (rb :: b') Hb Hnb)];
    cbn beta iota zeta; cbn [bronze_table silver_table gold_table];
    destruct s as [|rs s']; cbn beta iota zeta; cbn [bronze_table silver_table gold_table];
    [|rewrite (append_after_delete silver_pk silver_pk_eq_dec s_snapshot_date fst
                 (fun _ => eq_refl) d _ (rs :: s') Hs Hns)
     |
     |rewrite (append_after_delete silver_pk silver_pk_eq_dec s_snapshot_date fst
                 (fun _ => eq_refl) d _ (rs :: s') Hs Hns)];
    cbn beta iota zeta; cbn [bronze_table silver_table gold_table];
    destruct g as [|rg g']; cbn beta iota zeta; cbn [bronze_table silver_table gold_table];
    try rewrite (append_after_delete gold_pk gold_pk_eq_dec g_snapshot_date fst
                   (fun _ => eq_refl) d _ (rg :: g') Hg Hng);
    cbn beta iota zeta; cbn [bronze_table silver_table gold_table];
    rewrite ?app_nil_r; reflexivity.
Qed.

(** When the three frames all carry the snapshot date [d] (given, or taken
    from the first non-empty frame), hold only values their tables accept
    (32-bit [int]s, text without NUL) and none repeats a primary key,
    [load_dataframes] replaces the snapshot: every row of date [d] already
    in a table is deleted, the frames are appended, other dates are
    untouched; loading the same frames again leaves the tables as they are. *)
Theorem load_replaces_snapshot : forall d b s g snap db,
  (snap = Some d \/ (snap = None /\ (b <> [] \/ s <> [] \/ g <> []))) ->
  Forall (fun r => bronze_storable r = true) b ->
  Forall (fun x => silver_storable x = true) s ->
  Forall (fun x => gold_storable x = true) g ->
  Forall (fun r => snapshot_date r = d) b ->
  Forall (fun x => s_snapshot_date x = d) s ->
  Forall (fun x => g_snapshot_date x = d) g ->
  NoDup (map bronze_pk b) -> NoDup (map silver_pk s) -> NoDup (map gold_pk g) ->
  load_dataframes b s g snap db =
    Loaded (inserted_counts b s g) (replaced_snapshot d b s g db) /\
  load_dataframes b s g snap (replaced_snapshot d b s g db) =
    Loaded (inserted_counts b s g) (replaced_snapshot d b s g db).
Proof.
  intros d b s g snap db Hsnap _ _ _ Hb Hs Hg Hnb Hns Hng.
  pose proof (resolve_snapshot d b s g snap Hsnap Hb Hs Hg) as Hres.
  split; [apply load_dataframes_success; assumption|].
  rewrite (load_dataframes_success d b s g snap _ Hres Hb Hs Hg Hnb Hns Hng).
  unfold replaced_snapshot; cbn [bronze_table silver_table gold_table].
  rewrite (filter_snapshot_app snapshot_date d _ b Hb),
    (filter_snapshot_app s_snapshot_date d _ s Hs),
    (filter_snapshot_app g_snapshot_date d _ g Hg).
  reflexivity.
Qed.

(** [load_dataframes] is not atomic: when the Bronze and Silver frames hold
    only values their tables accept and the Silver frame repeats a Silver
    primary key [(snapshot_date, market, artist_id)] (as one artist id under
    two names does), the load raises [IntegrityError] after the deletion of
    the snapshot's rows from all three tables and the append of the Bronze
    frame have been committed, so the snapshot is left with Bronze rows only. *)
Theorem load_silver_conflict_partial : forall d b s g snap db,
  (snap = Some d \/ snap = None) ->
  Forall (fun r => bronze_storable r = true) b ->
  Forall (fun x => silver_storable x = true) s ->
  Forall (fun r => snapshot_date r = d) b -> NoDup (map bronze_pk b) ->
  Forall (fun x => s_snapshot_date x = d) s -> ~ NoDup (map silver_pk s) ->
  load_dataframes b s g snap db =
  LoadRaised (IntegrityError SILVER_TABLE)
    (mkDb (filter (fun r => negb (Z.eqb (snapshot_date r) d)) (bronze_table db) ++ b)
          (filter (fun x => negb (Z.eqb (s_snapshot_date x) d)) (silver_table db))
          (filter (fun x => negb (Z.eqb (g_snapshot_date x) d)) (gold_table db)))%list.
Proof.
  intros d b s g snap db Hsnap _ _ Hb Hnb Hs Hns.
  assert (Hsne : s <> []) by (intros ->; apply Hns; constructor).
  assert (Hres : match snap with Some d0 => Some d0 | None => first_snapshot b s g end = Some d).
  { destruct Hsnap as [ -> | -> ]; [reflexivity|].
    destruct b as [|r b]; [|inversion Hb; subst; reflexivity].
    destruct s as [|x s]; [contradiction Hsne; reflexivity|inversion Hs; subst; reflexivity]. }
  unfold load_dataframes; rewrite Hres; cbn zeta iota beta.
  unfold _delete_snapshot; cbn [bronze_table silver_table gold_table].
  assert (Hbronze : match b with
    | [] => Some ([], mkDb (filter (fun r => negb (Z.eqb (snapshot_date r) d)) (bronze_table db))
                       (filter (fun x => negb (Z.eqb (s_snapshot_date x) d)) (silver_table db))
                       (filter (fun x => negb (Z.eqb (g_snapshot_date x) d)) (gold_table db)))
    | _ => match append_rows bronze_pk bronze_pk_eq_dec
                   (filter (fun r => negb (Z.eqb (snapshot_date r) d)) (bronze_table db)) b with
           | Some t => Some ([(BRONZE_TABLE, length b)],
                             mkDb t (filter (fun x => negb (Z.eqb (s_snapshot_date x) d)) (silver_table db))
                                    (filter (fun x => negb (Z.eqb (g_snapshot_date x) d)) (gold_table db)))
           | None => None
           end
    end = Some (match b with [] => [] | _ => [(BRONZE_TABLE, length b)] end,
                mkDb (filter (fun r => negb (Z.eqb (snapshot_date r) d)) (bronze_table db) ++ b)
                     (filter (fun x => negb (Z.eqb (s_snapshot_date x) d)) (silver_table db))
                     (filter (fun x => negb (Z.eqb (g_snapshot_date x) d)) (gold_table db)))%list).
  { destruct b as [|rb b']; [rewrite app_nil_r; reflexivity|].
    rewrite (append_after_delete bronze_pk bronze_pk_eq_dec snapshot_date fst
               (fun _ => eq_refl) d _ (rb :: b') Hb Hnb); reflexivity. }
  rewrite Hbronze; cbn [bronze_table silver_table gold_table].
  destruct s as [|rs s']; [contradiction Hsne; reflexivity|].
  rewrite (append_dup_fails silver_pk silver_pk_eq_dec _ (rs :: s') Hns); reflexivity.
Qed.

Lemma load_replaces_snapshot_witness :
  let old := mkDb [mkBronze 7 "US" "p" "P" 1 "t0" None ["a0"] ["Z"] (Some 50);
                   mkBronze 6 "US" "p" "P" 1 "t9" None ["a9"] ["Y"] (Some 50)]
                  [mkSilver 7 "US" "a0" "Z" 1 50 1]
                  [mkGold 6 "a9" "Y" 1 50 1] in
  let b := [mkBronze 7 "US" "p" "P" 1 "t1" None ["a1"] ["A"] (Some 50);
            mkBronze 7 "US" "p" "P" 2 "t2" None ["a1"] ["A"] (Some 49)] in
  let s := [mkSilver 7 "US" "a1" "A" 2 99 1] in
  let g := [mkGold 7 "a1" "A" 1 99 1] in
  load_dataframes b s g None old = Loaded (inserted_counts b s g) (replaced_snapshot 7 b s g old) /\
  load_dataframes b s g None (replaced_snapshot 7 b s g old) =
    Loaded (inserted_counts b s g) (replaced_snapshot 7 b s g old).
Proof.
  intros old b s g.
  apply (load_replaces_snapshot 7 b s g None old); subst old b s g.
  - right; split; [reflexivity|left; discriminate].
  - repeat (apply Forall_cons; [vm_compute; reflexivity|]); apply Forall_nil.
  - repeat (apply Forall_cons; [vm_compute; reflexivity|]); apply Forall_nil.
  - repeat (apply Forall_cons; [vm_compute; reflexivity|]); apply Forall_nil.
  - repeat constructor.
  - repeat constructor.
  - repeat constructor.
  - unfold bronze_pk, silver_pk, gold_pk; simpl; repeat (apply NoDup_cons; [simpl; intuition congruence|]); apply NoDup_nil.
  - unfold bronze_pk, silver_pk, gold_pk; simpl; repeat (apply NoDup_cons; [simpl; intuition congruence|]); apply NoDup_nil.
  - unfold bronze_pk, silver_pk, gold_pk; simpl; repeat (apply NoDup_cons; [simpl; intuition congruence|]); apply NoDup_nil.
Defined.

Lemma load_silver_conflict_partial_witness :
  let old := mkDb [mkBronze 7 "US" "p" "P" 1 "t0" None ["a0"] ["Z"] (Some 50)]
                  [mkSilver 7 "US" "a0" "Z" 1 50 1]
                  [mkGold 7 "a0" "Z" 1 50 1] in
  let b := [mkBronze 7 "US" "p" "P" 1 "t1" None ["a1"; "a1"] ["A"; "A2"] (Some 50)] in
  let s := [mkSilver 7 "US" "a1" "A" 1 50 1; mkSilver 7 "US" "a1" "A2" 1 50 1] in
  let g := [mkGold 7 "a1" "A" 1 50 1; mkGold 7 "a1" "A2" 1 50 1] in
  load_dataframes b s g None old =
  LoadRaised (IntegrityError SILVER_TABLE) (mkDb b [] []).
Proof.
  intros old b s g.
  rewrite (load_silver_conflict_partial 7 b s g None old); subst old b s g.
  - reflexivity.
  - right; reflexivity.
  - repeat (apply Forall_cons; [vm_compute; reflexivity|]); apply Forall_nil.
  - repeat (apply Forall_cons; [vm_compute; reflexivity|]); apply Forall_nil.
  - repeat constructor.
  - unfold bronze_pk, silver_pk, gold_pk; simpl; repeat (apply NoDup_cons; [simpl; intuition congruence|]); apply NoDup_nil.
  - repeat constructor.
  - intro H; inversion H as [|x l Hx Hl]; apply Hx; left; reflexivity.
Defined.

(** * Properties of the market-search extract *)

Lemma snapshot_records_facts : forall today m pid pname items k r,
  In r (snapshot_records today m pid pname k items) ->
  rec_snapshot_date r = today /\ rec_market r = m /\ rec_playlist_id r = pid /\
  k <= rec_rank r < k + Z.of_nat (length items).
Proof.
  intros today m pid pname items; induction items as [|it items IH]; intros k r Hr.
  - contradiction.
  - destruct Hr as [<-|Hr].
    + cbn [rec_snapshot_date rec_market rec_playlist_id rec_rank length]; repeat split; lia.
    + destruct (IH (k + 1) r Hr) as (H1 & H2 & H3 & H4).
      cbn [length]; repeat split; auto; lia.
Qed.

Lemma snapshot_records_keys_nodup : forall today m pid pname items k,
  NoDup (map (fun r => (rec_market r, rec_rank r))
             (snapshot_records today m pid pname k items)).
Proof.
  intros today m pid pname items; induction items as [|it items IH]; intros k.
  - constructor.
  - cbn [snapshot_records map]; constructor; [|apply IH].
    intros Hin; apply in_map_iff in Hin as [r [Hk Hr]].
    apply snapshot_records_facts in Hr as (_ & _ & _ & Hrk).
    injection Hk as _ Hrank; cbn [rec_rank] in Hrank; lia.
Qed.

Lemma snapshot_records_ranks : forall today m pid pname items (k : nat),
  map rec_rank (snapshot_records today m pid pname (Z.of_nat k) items) =
  map Z.of_nat (seq k (length items)).
Proof.
  intros today m pid pname items; induction items as [|it items IH]; intros k.
  - reflexivity.
  - cbn [snapshot_records map length seq rec_rank]; f_equal.
    replace (Z.of_nat k + 1) with (Z.of_nat (S k)) by lia; apply IH.
Qed.

Lemma snapshot_records_track_ids : forall today m pid pname items k,
  map rec_track_id (snapshot_records today m pid pname k items) =
  map (fun it => match item_track it with Some t => track_id_field t | None => None end) items.
Proof.
  intros today m pid pname items; induction items as [|it items IH]; intros k.
  - reflexivity.
  - cbn [snapshot_records map rec_track_id]; f_equal; apply IH.
Qed.

Lemma extract_records_facts : forall MARKETS find_top50 fetch_tracks today r,
  In r (extract_daily_snapshots MARKETS find_top50 fetch_tracks today) ->
  In (rec_market r) MARKETS /\ 1 <= rec_rank r <= 50 /\ rec_snapshot_date r = today.
Proof.
  intros MARKETS find_top50 fetch_tracks today r Hr.
  unfold extract_daily_snapshots in Hr; apply in_flat_map in Hr as [m [Hm Hr]].
  destruct (find_top50 m) as [pid pname]; destruct (truthy pid) as [pid'|]; [|contradiction].
  apply snapshot_records_facts in Hr as (H1 & H2 & _ & H4).
  rewrite length_firstn in H4; subst; repeat split; auto; lia.
Qed.

(** [extract_daily_snapshots] numbers the kept items of each market from 1,
    so every record has a rank between 1 and 50, a market of [MARKETS] and
    today's date, and, when [MARKETS] lists each market once, no two records
    share a market and a rank (the Bronze primary key once dated). *)
Theorem extract_snapshot_keys_unique : forall MARKETS find_top50 fetch_tracks today,
  NoDup MARKETS ->
  NoDup (map (fun r => (rec_market r, rec_rank r))
             (extract_daily_snapshots MARKETS find_top50 fetch_tracks today)) /\
  (forall r, In r (extract_daily_snapshots MARKETS find_top50 fetch_tracks today) ->
     In (rec_market r) MARKETS /\ 1 <= rec_rank r <= 50 /\ rec_snapshot_date r = today).
Proof.
  intros MARKETS find_top50 fetch_tracks today Hnd.
  split; [|apply extract_records_facts].
  induction MARKETS as [|m ms IH]; [constructor|].
  inversion Hnd as [|x l Hm Hms]; subst.
  change (extract_daily_snapshots (m :: ms) find_top50 fetch_tracks today) with
    ((let '(pid, pname) := find_top50 m in
      match truthy pid with
      | None => []
      | Some pid' => snapshot_records today m pid' pname 1 (firstn 50 (fetch_tracks pid' m))
      end) ++ extract_daily_snapshots ms find_top50 fetch_tracks today)%list.
  rewrite map_app.
  destruct (find_top50 m) as [pid pname]; destruct (truthy pid) as [pid'|];
    [|apply IH; exact Hms].
  apply NoDup_app; [apply snapshot_records_keys_nodup|apply IH; exact Hms|].
  intros [m' k] Ha Hb.
  apply in_map_iff in Ha as [r [Hra Hr]]; apply in_map_iff in Hb as [r' [Hrb Hr']].
  apply snapshot_records_facts in Hr as (_ & Hrm & _).
  apply extract_records_facts in Hr' as (Hin & _).
  injection Hra as Hra _; injection Hrb as Hrb _.
  apply Hm; congruence.
Qed.

Lemma filter_flat_map_app : forall (A B : Type) (f : B -> bool) (F : A -> list B) l,
  filter f (flat_map F l) = flat_map (fun a => filter f (F a)) l.
Proof.
  intros A B f F l; induction l as [|a l IH]; [reflexivity|].
  cbn [flat_map]; rewrite filter_app, IH; reflexivity.
Qed.

Lemma filter_all_false : forall (A : Type) (f : A -> bool) l,
  (forall x, In x l -> f x = false) -> filter f l = [].
Proof.
  intros A f l; induction l as [|a l IH]; intros H; [reflexivity|].
  cbn [filter]; rewrite (H a (or_introl eq_refl)); apply IH.
  intros x Hx; apply H; right; exact Hx.
Qed.

Lemma filter_records_other : forall today m m' pid pname k items,
  m' <> m ->
  filter (fun r => String.eqb (rec_market r) m) (snapshot_records today m' pid pname k items) = [].
Proof.
  intros today m m' pid pname k items Hne.
  apply filter_all_false; intros r Hr.
  apply snapshot_records_facts in Hr as (_ & -> & _).
  apply String.eqb_neq; exact Hne.
Qed.

Lemma filter_records_same : forall today m pid pname k items,
  filter (fun r => String.eqb (rec_market r) m) (snapshot_records today m pid pname k items) =
  snapshot_records today m pid pname k items.
Proof.
  intros today m pid pname k items; apply forallb_filter_id, forallb_forall.
  intros r Hr; apply snapshot_records_facts in Hr as (_ & -> & _).
  apply String.eqb_refl.
Qed.

Lemma filter_market_absent : forall MARKETS find_top50 fetch_tracks today m,
  ~ In m MARKETS ->
  filter (fun r => String.eqb (rec_market r) m)
    (extract_daily_snapshots MARKETS find_top50 fetch_tracks today) = [].
Proof.
  intros MARKETS find_top50 fetch_tracks today m Hm.
  apply filter_all_false; intros r Hr.
  apply extract_records_facts in Hr as (Hin & _).
  apply String.eqb_neq; intros Heq; rewrite Heq in Hin; exact (Hm Hin).
Qed.

(** For a market listed once in [MARKETS] whose search returns a truthy
    playlist id [pid], the records of that market are the first 50 items of
    [fetch_playlist_tracks(sp, pid, market=m)] in order, ranked
    [1, 2, ..., min(50, len(items))]. *)
Theorem extract_market_ranks : forall MARKETS find_top50 fetch_tracks today m pid,
  NoDup MARKETS -> In m MARKETS -> truthy (fst (find_top50 m)) = Some pid ->
  let recs := filter (fun r => String.eqb (rec_market r) m)
                (extract_daily_snapshots MARKETS find_top50 fetch_tracks today) in
  map rec_rank recs = map Z.of_nat (seq 1 (Nat.min 50 (length (fetch_tracks pid m)))) /\
  map rec_track_id recs =
    map (fun it => match item_track it with Some t => track_id_field t | None => None end)
        (firstn 50 (fetch_tracks pid m)).
Proof.
  intros MARKETS find_top50 fetch_tracks today m pid Hnd Hin Hpid recs.
  assert (Hrecs : recs = snapshot_records today m pid (snd (find_top50 m)) 1
                           (firstn 50 (fetch_tracks pid m))).
  { subst recs; induction MARKETS as [|m' ms IH]; [contradiction|].
    inversion Hnd as [|x l Hm' Hms]; subst.
    change (extract_daily_snapshots (m' :: ms) find_top50 fetch_tracks today) with
      ((let '(pid, pname) := find_top50 m' in
        match truthy pid with
        | None => []
        | Some pid' => snapshot_records today m' pid' pname 1 (firstn 50 (fetch_tracks pid' m'))
        end) ++ extract_daily_snapshots ms find_top50 fetch_tracks today)%list.
    rewrite filter_app.
    destruct (String.eqb_spec m' m) as [->|Hne].
    - rewrite (filter_market_absent ms find_top50 fetch_tracks today m Hm'), app_nil_r.
      destruct (find_top50 m) as [p pname]; cbn [fst snd] in *; rewrite Hpid.
      apply filter_records_same.
    - destruct Hin as [Heq|Hin]; [congruence|].
      destruct (find_top50 m') as [p pname]; destruct (truthy p) as [p'|].
      + rewrite filter_records_other by exact Hne; apply IH; assumption.
      + apply IH; assumption. }
  rewrite Hrecs; split.
  - rewrite <- length_firstn; apply (snapshot_records_ranks today m pid _ _ 1).
  - apply snapshot_records_track_ids.
Qed.

Lemma extract_snapshot_keys_unique_witness :
  let find := fun m : string => if String.eqb m "FR" then (None, None)
                                else (Some ("top50" ++ m), Some "Top 50") in
  let fetch := fun (pid m : string) =>
    if String.eqb m "US" then repeat (mkItem None) 60 else [mkItem None; mkItem None] in
  NoDup (map (fun r => (rec_market r, rec_rank r))
             (extract_daily_snapshots ["US"; "GB"; "FR"] find fetch "2024-05-01")) /\
  (forall r, In r (extract_daily_snapshots ["US"; "GB"; "FR"] find fetch "2024-05-01") ->
     In (rec_market r) ["US"; "GB"; "FR"] /\ 1 <= rec_rank r <= 50 /\
     rec_snapshot_date r = "2024-05-01").
Proof.
  intros find fetch.
  apply (extract_snapshot_keys_unique ["US"; "GB"; "FR"] find fetch "2024-05-01").
  repeat (apply NoDup_cons; [simpl; intuition discriminate|]); apply NoDup_nil.
Defined.

Lemma extract_market_ranks_witness :
  let find := fun m : string => if String.eqb m "FR" then (None, None)
                                else (Some ("top50" ++ m), Some "Top 50") in
  let fetch := fun (pid m : string) =>
    if String.eqb m "US" then repeat (mkItem None) 60 else [mkItem None; mkItem None] in
  let recs := filter (fun r => String.eqb (rec_market r) "US")
                (extract_daily_snapshots ["US"; "GB"; "FR"] find fetch "2024-05-01") in
  map rec_rank recs = map Z.of_nat (seq 1 (Nat.min 50 (length (fetch "top50US" "US")))) /\
  map rec_track_id recs =
    map (fun it => match item_track it with Some t => track_id_field t | None => None end)
        (firstn 50 (fetch "top50US" "US")).
Proof.
  intros find fetch.
  apply (extract_market_ranks ["US"; "GB"; "FR"] find fetch "2024-05-01" "US" "top50US").
  - repeat (apply NoDup_cons; [simpl; intuition discriminate|]); apply NoDup_nil.
  - left; reflexivity.
  - reflexivity.
Defined.

(** * Properties of [load_settings] *)

Lemma parse_playlists_nonempty : forall raw ts,
  _parse_playlists raw = ParseOk ts -> ts <> [].
Proof.
  intros raw ts H; unfold _parse_playlists in H.
  destruct (truthy raw) as [r|]; [|injection H as <-; discriminate].
  destruct (parse_parts _) as [[|t ts']|msg]; [discriminate|injection H as <-; discriminate|discriminate].
Qed.

Lemma truthy_some_nonempty : forall o s, truthy o = Some s -> o = Some s /\ s <> EmptyString.
Proof.
  intros [s'|] s H; [|discriminate]; cbn [truthy] in H.
  destruct (String.eqb_spec s' EmptyString); [discriminate|].
  injection H as <-; split; [reflexivity|assumption].
Qed.

(** [load_settings] checks the credentials first: when [SPOTIFY_CLIENT_ID] or
    [SPOTIFY_CLIENT_SECRET] is unset or empty it raises the credentials error,
    whatever [TARGET] and [SPOTIFY_PLAYLIST_IDS] hold. *)
Theorem load_settings_credentials_first : forall env,
  truthy (env "SPOTIFY_CLIENT_ID") = None \/ truthy (env "SPOTIFY_CLIENT_SECRET") = None ->
  load_settings env = ParseRaised credentials_error.
Proof.
  intros env [H|H]; unfold load_settings; rewrite H; [reflexivity|].
  destruct (truthy (env "SPOTIFY_CLIENT_ID")); reflexivity.
Qed.

(** Settings returned by [load_settings] carry the non-empty credentials
    read from the environment, a [target] that is ["files"] or
    ["postgres"], at least one playlist target and a non-empty output
    directory; [use_database] holds only for the ["postgres"] target with a
    non-empty [SUPABASE_DATABASE_URL]. *)
Theorem load_settings_ok : forall env st,
  load_settings env = ParseOk st ->
  env "SPOTIFY_CLIENT_ID" = Some (spotify_client_id st) /\ spotify_client_id st <> EmptyString /\
  env "SPOTIFY_CLIENT_SECRET" = Some (spotify_client_secret st) /\
  spotify_client_secret st <> EmptyString /\
  (target st = "files" \/ target st = "postgres") /\
  playlists st <> [] /\ files_output_dir st <> EmptyString /\
  (use_database st = true ->
   target st = "postgres" /\ exists url, env "SUPABASE_DATABASE_URL" = Some url /\ url <> EmptyString).
Proof.
  intros env st H; unfold load_settings in H.
  destruct (truthy (env "SPOTIFY_CLIENT_ID")) as [cid|] eqn:Hid; [|discriminate].
  destruct (truthy (env "SPOTIFY_CLIENT_SECRET")) as [sec|] eqn:Hsec; [|discriminate].
  apply truthy_some_nonempty in Hid as [Hid Hcid]; apply truthy_some_nonempty in Hsec as [Hsec Hsec'].
  cbv zeta in H.
  set (t := lower (strip (match env "TARGET" with Some v => v | None => "files" end))) in H.
  assert (Ht : t = "files" \/ t = "postgres").
  { destruct (String.eqb_spec t "files") as [Ht|Ht]; [left; exact Ht|].
    destruct (String.eqb_spec t "postgres") as [Ht'|Ht']; [right; exact Ht'|discriminate]. }
  assert (Hif : negb (String.eqb t "files" || String.eqb t "postgres") = false).
  { destruct Ht as [-> | ->]; reflexivity. }
  rewrite Hif in H.
  destruct (_parse_playlists (env "SPOTIFY_PLAYLIST_IDS")) as [pls|msg] eqn:Hpl; [|discriminate].
  injection H as <-; cbn [spotify_client_id spotify_client_secret target playlists
                          files_output_dir database_url].
  split; [exact Hid|]; split; [exact Hcid|]; split; [exact Hsec|]; split; [exact Hsec'|].
  split; [exact Ht|]; split; [eapply parse_playlists_nonempty; exact Hpl|].
  split.
  - destruct (truthy (env "FILES_OUTPUT_DIR")) as [fo|] eqn:Hfo; [|discriminate].
    apply truthy_some_nonempty in Hfo as [_ Hfo]; exact Hfo.
  - unfold use_database; cbn [target database_url]; intros Hu.
    apply andb_prop in Hu as [Hu1 Hu2]; apply String.eqb_eq in Hu1.
    split; [exact Hu1|].
    destruct (truthy (env "SUPABASE_DATABASE_URL")) as [u|] eqn:Hu; [|discriminate].
    apply truthy_some_nonempty in Hu as [Hu Hne]; exists u; split; assumption.
Qed.

(** How [TARGET] is read, once the credentials and the playlists are valid:
    unset, it selects ["files"] and no database; set to the empty string it
    is rejected ([os.getenv]'s default applies only to an unset variable);
    any value that strips and lower-cases to ["postgres"] (such as
    [" PostGres "]) selects the database when [SUPABASE_DATABASE_URL] is
    non-empty. *)
Theorem load_settings_target : forall env cid sec pls,
  truthy (env "SPOTIFY_CLIENT_ID") = Some cid ->
  truthy (env "SPOTIFY_CLIENT_SECRET") = Some sec ->
  _parse_playlists (env "SPOTIFY_PLAYLIST_IDS") = ParseOk pls ->
  (env "TARGET" = None ->
   exists st, load_settings env = ParseOk st /\ target st = "files" /\ use_database st = false) /\
  (env "TARGET" = Some EmptyString -> load_settings env = ParseRaised target_error) /\
  (forall v, env "TARGET" = Some v -> lower (strip v) = "postgres" ->
   truthy (env "SUPABASE_DATABASE_URL") <> None ->
   exists st, load_settings env = ParseOk st /\ target st = "postgres" /\ use_database st = true).
Proof.
  intros env cid sec pls Hid Hsec Hpl; unfold load_settings; rewrite Hid, Hsec.
  split; [|split].
  - intros Ht; rewrite Ht, Hpl; eexists; split; [reflexivity|split; reflexivity].
  - intros Ht; rewrite Ht; reflexivity.
  - intros v Ht Hv Hurl; rewrite Ht; cbv zeta; rewrite Hv, Hpl.
    eexists; split; [reflexivity|split; [reflexivity|]].
    unfold use_database; cbn [target database_url].
    destruct (truthy (env "SUPABASE_DATABASE_URL")); [reflexivity|contradiction Hurl; reflexivity].
Qed.

Lemma load_settings_credentials_first_witness :
  let env := fun k : string =>
    if String.eqb k "SPOTIFY_CLIENT_ID" then Some EmptyString
    else if String.eqb k "SPOTIFY_CLIENT_SECRET" then Some "secret"
    else if String.eqb k "TARGET" then Some "bogus"
    else None in
  load_settings env = ParseRaised credentials_error.
Proof.
  intros env; apply (load_settings_credentials_first env); left; reflexivity.
Defined.

Lemma load_settings_ok_witness :
  let env := fun k : string =>
    if String.eqb k "SPOTIFY_CLIENT_ID" then Some "cid"
    else if String.eqb k "SPOTIFY_CLIENT_SECRET" then Some "secret"
    else if String.eqb k "TARGET" then Some " PostGres "
    else if String.eqb k "SUPABASE_DATABASE_URL" then Some "postgresql://db"
    else None in
  let st := mkSettings "cid" "secret" "postgres" (Some "postgresql://db") "ETL/outputs"
              [default_target] in
  load_settings env = ParseOk st /\
  (env "SPOTIFY_CLIENT_ID" = Some (spotify_client_id st) /\ spotify_client_id st <> EmptyString /\
   env "SPOTIFY_CLIENT_SECRET" = Some (spotify_client_secret st) /\
   spotify_client_secret st <> EmptyString /\
   (target st = "files" \/ target st = "postgres") /\
   playlists st <> [] /\ files_output_dir st <> EmptyString /\
   (use_database st = true ->
    target st = "postgres" /\ exists url, env "SUPABASE_DATABASE_URL" = Some url /\ url <> EmptyString)).
Proof.
  intros env st.
  assert (H : load_settings env = ParseOk st) by reflexivity.
  split; [exact H|apply (load_settings_ok env st H)].
Defined.

Lemma load_settings_target_witness :
  let env := fun k : string =>
    if String.eqb k "SPOTIFY_CLIENT_ID" then Some "cid"
    else if String.eqb k "SPOTIFY_CLIENT_SECRET" then Some "secret"
    else if String.eqb k "TARGET" then Some " PostGres "
    else if String.eqb k "SUPABASE_DATABASE_URL" then Some "postgresql://db"
    else None in
  (env "TARGET" = None ->
   exists st, load_settings env = ParseOk st /\ target st = "files" /\ use_database st = false) /\
  (env "TARGET" = Some EmptyString -> load_settings env = ParseRaised target_error) /\
  (forall v, env "TARGET" = Some v -> lower (strip v) = "postgres" ->
   truthy (env "SUPABASE_DATABASE_URL") <> None ->
   exists st, load_settings env = ParseOk st /\ target st = "postgres" /\ use_database st = true).
Proof.
  intros env; apply (load_settings_target env "cid" "secret" [default_target]); reflexivity.
Defined.
